(** * ls.c: a shallow embedding and its verified properties

    The program is a small [ls]: it parses flags with [getopt_long],
    classifies its operands into directories and other files, sorts both
    groups with [qsort]/[strcasecmp], prints one line per plain operand and
    then the entries of every directory operand.

    Pure C functions are Rocq functions.  Code that talks to the operating
    system runs in a small monad threading the OS state and [errno], ending
    early on [exit], and recording every system call and every write to
    stdout or stderr in an event log. *)

From Stdlib Require Import List ZArith Bool Ascii String Lia.
From Stdlib Require Import Sorted Permutation Wf_nat.
From Equations Require Import Equations.
Import ListNotations.

Local Open Scope string_scope.
Local Open Scope list_scope.
Local Open Scope Z_scope.

(** ** C strings and characters *)

(** The value of a [char] read through an [unsigned char *]. *)
Definition byte_of (c : ascii) : Z := Z.of_N (N_of_ascii c).

(** [tolower] in the "C" locale (the program never calls [setlocale]). *)
Definition tolower (c : Z) : Z :=
  if (65 <=? c) && (c <=? 90) then c + 32 else c.

(** The byte a [char *] points at: the first character, or the terminating
    NUL of an empty string. *)
Definition peek (s : string) : Z :=
  match s with
  | EmptyString => 0
  | String c _ => byte_of c
  end.

(** The pointer advanced by one. *)
Definition advance (s : string) : string :=
  match s with
  | EmptyString => EmptyString
  | String _ r => r
  end.

(** [strcasecmp]: walk both strings, comparing lowered bytes; stop at the
    first difference or when the first string ends.  The result is the
    difference of the two lowered bytes last read. *)
Fixpoint strcasecmp (s1 s2 : string) : Z :=
  match s1 with
  | EmptyString => 0 - tolower (peek s2)
  | String a r1 =>
      let c1 := tolower (byte_of a) in
      let c2 := tolower (peek s2) in
      if c1 =? 0 then c1 - c2
      else if c1 =? c2 then strcasecmp r1 (advance s2)
      else c1 - c2
  end.

(** [strcmp], same walk without lowering. *)
Fixpoint strcmp (s1 s2 : string) : Z :=
  match s1 with
  | EmptyString => 0 - peek s2
  | String a r1 =>
      let c1 := byte_of a in
      let c2 := peek s2 in
      if c1 =? 0 then c1 - c2
      else if c1 =? c2 then strcmp r1 (advance s2)
      else c1 - c2
  end.

(** A Rocq string is a C string when it holds no NUL byte. *)
Fixpoint c_string (s : string) : bool :=
  match s with
  | EmptyString => true
  | String c r => negb (byte_of c =? 0) && c_string r
  end.

(** ** Sorting: [cmp], [qsort], [sort] *)

(** [cmp] dereferences two [char **] and calls [strcasecmp]. *)
Definition cmp (s1 s2 : string) : Z := strcasecmp s1 s2.

Section Qsort.
Context {A : Type} (compar : A -> A -> Z).

(** The merge step of glibc's [qsort] (msort.c): the element of the left
    run is taken while [compar b1 b2 <= 0]. *)
Fixpoint merge (l1 : list A) : list A -> list A :=
  fix merge_right (l2 : list A) : list A :=
    match l1, l2 with
    | [], _ => l2
    | _, [] => l1
    | a :: r1, b :: r2 =>
        if compar a b <=? 0 then a :: merge r1 l2
        else b :: merge_right r2
    end.

(** [qsort] as glibc implements it: a top-down merge sort that splits the
    array at [n / 2]. *)
Equations? qsort (base : list A) : list A by wf (List.length base) lt :=
  qsort [] := [];
  qsort [a] := [a];
  qsort (a :: b :: r) :=
    let n1 := Nat.div2 (List.length (a :: b :: r)) in
    merge (qsort (firstn n1 (a :: b :: r))) (qsort (skipn n1 (a :: b :: r))).
Proof.
  - rewrite length_firstn. simpl List.length.
    pose proof (Nat.div2_decr (List.length r) (List.length r)). lia.
  - rewrite length_skipn. simpl List.length.
    generalize (Nat.div2 (List.length r)). intros; lia.
Qed.
End Qsort.

(** [sort] sorts an array of names in place; the embedding returns the
    sorted array. *)
Definition sort (files : list string) : list string := qsort cmp files.

(** ** Options: [struct arg_t], [getopt_long], [parse_args] *)

(** [struct arg_t]; the [int] flags are kept as integers, [files]/[fc] as
    the list of names and its length. *)
Record arg_t := mk_args {
  all : Z;      (* all files *)
  almost : Z;   (* almost all files except . and .. *)
  human : Z;    (* human readable for file size *)
  follow : Z;   (* follow symbolic link *)
  files : list string;
  fc : Z
}.

(** [static struct arg_t g_args], zero-initialised. *)
Definition g_args0 : arg_t := mk_args 0 0 0 0 [] 0.

Definition opts : string := "aAhL".

(** The long option table; every entry is [no_argument] with a NULL flag,
    so only the name and the value returned are kept. *)
Definition options : list (string * ascii) :=
  [("all", "a"%char); ("almost-all", "A"%char); ("human-readable", "h"%char);
   ("dereference", "L"%char); ("help", "?"%char)].

Fixpoint mem_char (c : ascii) (s : string) : bool :=
  match s with
  | EmptyString => false
  | String d r => Ascii.eqb c d || mem_char c r
  end.

(** What [getopt_long] returns for each character of a cluster [-xyz]. *)
Fixpoint short_codes (cluster : string) : list ascii :=
  match cluster with
  | EmptyString => []
  | String c r => (if mem_char c opts then c else "?"%char) :: short_codes r
  end.

(** Splits [name=value] at the first [=]. *)
Fixpoint split_eq (s : string) : string * bool :=
  match s with
  | EmptyString => (EmptyString, false)
  | String c r =>
      if Ascii.eqb c "="%char then (EmptyString, true)
      else let (n, e) := split_eq r in (String c n, e)
  end.

(** What [getopt_long] returns for [--text]: an exact name wins, otherwise a
    unique abbreviation; an ambiguous or unknown name, or a value given to
    an option that takes none, is reported as ['?']. *)
Definition long_code (text : string) : ascii :=
  let (nm, has_value) := split_eq text in
  let exact := filter (fun o => String.eqb (fst o) nm) options in
  let abbrev := filter (fun o => String.prefix nm (fst o)) options in
  let found :=
    match exact, abbrev with
    | o :: _, _ => Some o
    | [], [o] => Some o
    | [], _ => None
    end in
  match found with
  | Some o => if has_value then "?"%char else snd o
  | None => "?"%char
  end.

(** All successive results of [getopt_long] on the arguments after
    [argv[0]], and the operands left at [argv + optind] once it has returned
    -1.  GNU [getopt_long] permutes: operands are skipped while scanning and
    end up, in their order, behind the options; [--] ends the options (the
    environment variable POSIXLY_CORRECT, which turns the permutation off,
    is taken to be unset).  The diagnostic that [getopt_long] itself writes
    to stderr for an option it does not know ([opterr] is left at 1) is
    library output and is not recorded: the log of a run whose options do
    not parse holds what the program writes, not that line. *)
Fixpoint getopt_long (args : list string) : list ascii * list string :=
  match args with
  | [] => ([], [])
  | a :: rest =>
      match a with
      | String "-" (String "-" EmptyString) => ([], rest)
      | String "-" (String "-" text) =>
          let (codes, operands) := getopt_long rest in
          (long_code text :: codes, operands)
      | String "-" (String c r) =>
          let (codes, operands) := getopt_long rest in
          (short_codes (String c r) ++ codes, operands)
      | _ =>
          let (codes, operands) := getopt_long rest in
          (codes, a :: operands)
      end
  end.

Definition set_all (g : arg_t) (v : Z) : arg_t :=
  mk_args v (almost g) (human g) (follow g) (files g) (fc g).
Definition set_almost (g : arg_t) (v : Z) : arg_t :=
  mk_args (all g) v (human g) (follow g) (files g) (fc g).
Definition set_human (g : arg_t) (v : Z) : arg_t :=
  mk_args (all g) (almost g) v (follow g) (files g) (fc g).
Definition set_follow (g : arg_t) (v : Z) : arg_t :=
  mk_args (all g) (almost g) (human g) v (files g) (fc g).
Definition set_files (g : arg_t) (fs : list string) : arg_t :=
  mk_args (all g) (almost g) (human g) (follow g) fs (Z.of_nat (List.length fs)).

(** The [for (;;)] loop of [parse_args] over the results of [getopt_long]:
    [true] when the loop is left by [break] (no more options), [false] on
    the early [return -1]; with [g_args] as the loop leaves it. *)
Fixpoint parse_opts (codes : list ascii) (g : arg_t) : bool * arg_t :=
  match codes with
  | [] => (true, g)
  | opt :: rest =>
      if Ascii.eqb opt "a" then parse_opts rest (set_all g 1)
      else if Ascii.eqb opt "A" then parse_opts rest (set_almost g 1)
      else if Ascii.eqb opt "h" then parse_opts rest (set_human g 1)
      else if Ascii.eqb opt "L" then parse_opts rest (set_follow g 1)
      else (false, g)
  end.

(** The tail of [parse_args]: "only one of two", then the operands, with
    ["."] as the default. *)
Definition finish_args (g : arg_t) (operands : list string) : arg_t :=
  let g := if negb (almost g =? 0) && negb (all g =? 0)
           then set_almost g 0 else g in
  let g := set_files g operands in
  if fc g =? 0 then set_files g ["."] else g.

(** [parse_args]: [argv] includes [argv[0]]; the result is the return value
    together with [g_args].  With an empty [argv] ([argc] is 0)
    [getopt_long] returns -1 at once and leaves [optind] at 1: [fc] is
    [argc - optind = -1], the default ["."] is not installed, and no element
    of [files] is ever read. *)
Definition parse_args (argv : list string) (g : arg_t) : Z * arg_t :=
  match argv with
  | [] => (0, mk_args (all g) (almost g) (human g) (follow g) [] (-1))
  | _ :: args =>
      let (codes, operands) := getopt_long args in
      match parse_opts codes g with
      | (false, g') => (-1, g')
      | (true, g') => (0, finish_args g' operands)
      end
  end.

(** ** The dotfile filter: [skip] *)

Definition skip (g : arg_t) (file : string) : Z :=
  if negb (all g =? 0) then 0
  else if negb (almost g =? 0)
          && (negb (strcmp file "." =? 0) && negb (strcmp file ".." =? 0))
  then 0
  else if peek file =? 46 then 1
  else 0.

(** ** [printf] conversions used by the program *)

Definition digit_char (d : Z) : ascii := ascii_of_N (Z.to_N (48 + d)).

(** Decimal digits of a non-negative number, least significant first pushed
    onto [acc]; a 64-bit value has at most 20 of them. *)
Fixpoint dec_digits (fuel : nat) (n : Z) (acc : string) : string :=
  match fuel with
  | O => acc
  | S fuel' =>
      let acc' := String (digit_char (n mod 10)) acc in
      if n <? 10 then acc' else dec_digits fuel' (n / 10) acc'
  end.

(** [%d] / [%ld] without a width. *)
Definition dec (n : Z) : string :=
  if n <? 0 then String "-" (dec_digits 20 (- n) "") else dec_digits 20 n "".

Fixpoint spaces (n : nat) : string :=
  match n with
  | O => ""
  | S k => String " " (spaces k)
  end.

(** Minimum field width, right-justified ([%7ld]) and left-justified
    ([%-6ld], [%-8s]). *)
Definition pad_left (w : nat) (s : string) : string :=
  (spaces (w - String.length s) ++ s)%string.
Definition pad_right (w : nat) (s : string) : string :=
  (s ++ spaces (w - String.length s))%string.

(** Reinterpretation of a 64-bit (resp. the low 32 bits of a) value as a
    signed [long] (resp. [int]): [st_ino] is printed with [%ld], [st_nlink]
    with [%d]. *)
Definition as_long (z : Z) : Z := (z + 2 ^ 63) mod 2 ^ 64 - 2 ^ 63.
Definition as_int (z : Z) : Z := (z + 2 ^ 31) mod 2 ^ 32 - 2 ^ 31.

(** [(double) n] for [n >= 0]: the nearest value with a 53 bit significand,
    ties to even; exact below 2^53. *)
Definition to_double (n : Z) : Z :=
  let e := Z.log2 n - 52 in
  if e <=? 0 then n
  else
    let q := n / 2 ^ e in
    let r := n mod 2 ^ e in
    let half := 2 ^ (e - 1) in
    (if (half <? r) || ((r =? half) && Z.odd q) then q + 1 else q) * 2 ^ e.

(** [%6.1f] of the double [d / 2^k], for an integral double [d >= 0].  The
    division by a power of two is exact in binary floating point, and
    [printf] rounds the exact quotient to one decimal place, ties to even;
    so the digits are computed here on integers: [tenths] is the quotient
    times ten, rounded. *)
Definition tenths (d k : Z) : Z :=
  let q := (d * 10) / 2 ^ k in
  let r := (d * 10) mod 2 ^ k in
  let half := 2 ^ (k - 1) in
  if (half <? r) || ((r =? half) && Z.odd q) then q + 1 else q.

Definition fmt_f1 (d k : Z) : string :=
  let t := tenths d k in
  pad_left 6 (dec (t / 10) ++ String "." (dec (t mod 10)))%string.

Definition ONE_KB : Z := 1024.
Definition ONE_MB : Z := ONE_KB * ONE_KB.
Definition ONE_GB : Z := ONE_MB * ONE_KB.

(** [fmt_size]: the plain [%7ld] rendering is written first and is what is
    returned unless [human] is set and the size reaches one of the units. *)
Definition fmt_size (g : arg_t) (size : Z) : string :=
  let buf := pad_left 7 (dec size) in
  if human g =? 0 then buf
  else if ONE_GB <=? size then (fmt_f1 (to_double size) 30 ++ "G")%string
  else if ONE_MB <=? size then (fmt_f1 (to_double size) 20 ++ "M")%string
  else if ONE_KB <=? size then (fmt_f1 (to_double size) 10 ++ "K")%string
  else buf.

(** ** File modes: [fmt_mode] *)

Definition S_IFMT : Z := 61440.    (* 0170000 *)
Definition S_IFDIR : Z := 16384.   (* 0040000 *)
Definition S_IFLNK : Z := 40960.   (* 0120000 *)
Definition S_IFCHR : Z := 8192.    (* 0020000 *)
Definition S_IFBLK : Z := 24576.   (* 0060000 *)
Definition S_IFIFO : Z := 4096.    (* 0010000 *)
Definition S_IFSOCK : Z := 49152.  (* 0140000 *)

Definition S_ISDIR (m : Z) : bool := Z.land m S_IFMT =? S_IFDIR.
Definition S_ISLNK (m : Z) : bool := Z.land m S_IFMT =? S_IFLNK.
Definition S_ISCHR (m : Z) : bool := Z.land m S_IFMT =? S_IFCHR.
Definition S_ISBLK (m : Z) : bool := Z.land m S_IFMT =? S_IFBLK.
Definition S_ISFIFO (m : Z) : bool := Z.land m S_IFMT =? S_IFIFO.
Definition S_ISSOCK (m : Z) : bool := Z.land m S_IFMT =? S_IFSOCK.

Definition perm_char (mode bit : Z) (c : ascii) : ascii :=
  if Z.land bit mode =? bit then c else "-"%char.

Definition fmt_mode (mode : Z) : string :=
  let type :=
    if S_ISDIR mode then "d"%char
    else if S_ISLNK mode then "l"%char
    else if S_ISCHR mode then "c"%char
    else if S_ISBLK mode then "b"%char
    else if S_ISFIFO mode then "p"%char
    else if S_ISSOCK mode then "s"%char
    else "-"%char in
  String type
    (String (perm_char mode 256 "r") (String (perm_char mode 128 "w")
    (String (perm_char mode 64 "x")
    (String (perm_char mode 32 "r") (String (perm_char mode 16 "w")
    (String (perm_char mode 8 "x")
    (String (perm_char mode 4 "r") (String (perm_char mode 2 "w")
    (String (perm_char mode 1 "x") EmptyString))))))))).

(** ** The operating system and the program monad *)

(** The fields of [struct stat] the program reads. *)
Record stat_t := mk_stat {
  st_ino : Z;
  st_nlink : Z;
  st_mode : Z;
  st_uid : Z;
  st_gid : Z;
  st_size : Z;
  st_mtime : Z
}.

(** What a run does that is visible from outside: system calls with their
    argument and whether they succeeded, and the text written to the two
    streams.  The two [chdir] call sites of [do_dirs] are told apart:
    [EvChdir] enters a directory, [EvChdirBack] is [chdir(cwd)].  [EvMalloc]
    is a [malloc] whose result the program checks, [EvStrdup] the [strdup] of
    [fmt_name], whose result it does not check. *)
Inductive event :=
| EvStat (path : string) (ok : bool)
| EvLstat (path : string) (ok : bool)
| EvReadlink (path : string) (ok : bool)
| EvOpendir (path : string) (ok : bool)
| EvChdir (path : string) (ok : bool)
| EvChdirBack (path : string) (ok : bool)
| EvGetcwd (ok : bool)
| EvMalloc (size : Z) (ok : bool)
| EvStrdup (text : string) (ok : bool)
| EvStdout (text : string)
| EvStderr (text : string).

(** How a computation ends: it returns, or the process has called [exit]. *)
Inductive outcome (A : Type) :=
| Ret (a : A)
| Exit (status : Z).
Arguments Ret {A} a.
Arguments Exit {A} status.

(** The operating system as the program sees it.  [W] is the state of the
    world (file system, working directory, free memory, ...); a failing call
    gives its [errno] on the left. *)
Record kernel (W : Type) := mk_kernel {
  k_stat : W -> string -> Z + stat_t;        (* follows symbolic links *)
  k_lstat : W -> string -> Z + stat_t;       (* does not *)
  k_readlink : W -> string -> Z -> Z + string;  (* path, buffer size *)
  k_readdir : W -> string -> Z + list string;
      (* opendir, then every d_name until readdir returns NULL *)
  k_chdir : W -> string -> Z + W;
  k_getcwd : W -> Z -> Z + string;            (* buffer size *)
  k_malloc : W -> Z -> bool * W;             (* size; false is NULL *)
  k_getpwuid : W -> Z -> option string;      (* pw_name *)
  k_getgrgid : W -> Z -> option string;      (* gr_name *)
  k_strftime : W -> Z -> string;  (* "%F %H:%M" of localtime(&t) *)
  k_strerror : Z -> string
}.
Arguments k_stat {W}.
Arguments k_lstat {W}.
Arguments k_readlink {W}.
Arguments k_readdir {W}.
Arguments k_chdir {W}.
Arguments k_getcwd {W}.
Arguments k_malloc {W}.
Arguments k_getpwuid {W}.
Arguments k_getgrgid {W}.
Arguments k_strftime {W}.
Arguments k_strerror {W}.

Definition ENOMEM : Z := 12.

Section Program.
Context {W : Type} (K : kernel W).

(** The state threaded through the program: the world and [errno]. *)
Record state := mk_state { world : W; errno : Z }.

Definition M (A : Type) : Type := state -> outcome A * state * list event.

Definition ret {A} (a : A) : M A := fun s => (Ret a, s, []).

Definition bind {A B} (m : M A) (k : A -> M B) : M B :=
  fun s =>
    match m s with
    | (Ret a, s1, l1) =>
        match k a s1 with
        | (o, s2, l2) => (o, s2, l1 ++ l2)
        end
    | (Exit n, s1, l1) => (Exit n, s1, l1)
    end.

Definition emit (e : event) : M unit := fun s => (Ret tt, s, [e]).

Definition exit {A} (status : Z) : M A := fun s => (Exit status, s, []).

Definition get_errno : M Z := fun s => (Ret (errno s), s, []).
End Program.

Arguments M : clear implicits.
Arguments state : clear implicits.
Arguments ret {W A} a.
Arguments bind {W A B} m k.
Arguments emit {W} e.
Arguments exit {W A} status.
Arguments get_errno {W}.
Arguments world {W} s.
Arguments errno {W} s.
Arguments mk_state {W} world errno.

Notation "x <- m ;; k" := (bind m (fun x => k))
  (at level 61, m at next level, right associativity).
Notation "m ;; k" := (bind m (fun _ => k))
  (at level 61, right associativity).

(** ** System calls as monadic actions *)

Section Syscalls.
Context {W : Type} (K : kernel W).

(** A call that only reads the world: log it, set [errno] on failure. *)
Definition query {A} (r : Z + A) (ev : bool -> event) : M W (option A) :=
  fun s =>
    match r with
    | inr a => (Ret (Some a), s, [ev true])
    | inl e => (Ret None, mk_state (world s) e, [ev false])
    end.

Definition sys_stat (path : string) : M W (option stat_t) :=
  fun s => query (k_stat K (world s) path) (EvStat path) s.

Definition sys_lstat (path : string) : M W (option stat_t) :=
  fun s => query (k_lstat K (world s) path) (EvLstat path) s.

Definition sys_readlink (path : string) (bufsiz : Z) : M W (option string) :=
  fun s => query (k_readlink K (world s) path bufsiz) (EvReadlink path) s.

Definition sys_readdir (path : string) : M W (option (list string)) :=
  fun s => query (k_readdir K (world s) path) (EvOpendir path) s.

Definition sys_getcwd (size : Z) : M W (option string) :=
  fun s => query (k_getcwd K (world s) size) EvGetcwd s.

(** [chdir] changes the world; [ev] names the call site. *)
Definition sys_chdir (ev : string -> bool -> event) (path : string)
  : M W bool :=
  fun s =>
    match k_chdir K (world s) path with
    | inr w' => (Ret true, mk_state w' (errno s), [ev path true])
    | inl e => (Ret false, mk_state (world s) e, [ev path false])
    end.

(** A [malloc] whose result the program checks. *)
Definition sys_malloc (size : Z) : M W bool :=
  fun s =>
    match k_malloc K (world s) size with
    | (true, w') => (Ret true, mk_state w' (errno s), [EvMalloc size true])
    | (false, w') => (Ret false, mk_state w' ENOMEM, [EvMalloc size false])
    end.

(** [strdup]: the copy needs [strlen + 1] bytes from the allocator; [None]
    is the NULL returned when there are none. *)
Definition sys_strdup (text : string) : M W (option string) :=
  fun s =>
    match k_malloc K (world s) (Z.of_nat (String.length text) + 1) with
    | (true, w') => (Ret (Some text), mk_state w' (errno s),
                     [EvStrdup text true])
    | (false, w') => (Ret None, mk_state w' ENOMEM, [EvStrdup text false])
    end.

Definition getpwuid (uid : Z) : M W (option string) :=
  fun s => (Ret (k_getpwuid K (world s) uid), s, []).

Definition getgrgid (gid : Z) : M W (option string) :=
  fun s => (Ret (k_getgrgid K (world s) gid), s, []).

Definition strftime_local (t : Z) : M W string :=
  fun s => (Ret (k_strftime K (world s) t), s, []).

Definition fprintf_stdout (text : string) : M W unit := emit (EvStdout text).

Definition MAXLINE : nat := 2048.

(** What [err_sys] leaves in its buffer: the message, then [": "] and
    [strerror(errno)], both cut to the room left in [MAXLINE] bytes, then
    a newline.  The newline is added with [strcat], which does not look at
    the size of the buffer: the text is inside [buf] as long as the two
    prints leave fewer than [MAXLINE - 1] characters, which every message of
    the program does unless a name of some two thousand characters is
    involved. *)
Definition err_text (msg : string) (e : Z) : string :=
  let buf := substring 0 (MAXLINE - 1) msg in
  let tail := substring 0 (MAXLINE - String.length buf - 1)
                (": " ++ k_strerror K e)%string in
  (buf ++ tail ++ String "010" "")%string.

(** [err_sys] writes that text to stderr. *)
Definition err_sys (msg : string) : M W unit :=
  e <- get_errno ;;
  emit (EvStderr (err_text msg e)).
End Syscalls.

(** ** The program *)

Definition usage_text : string :=
  ("Usage: ls -[aAhL] [FILE]..." ++ String "010" ""
   ++ "List information about the FILEs (the current directory by default)."
   ++ String "010" ""
   ++ "Sort entries alphabetically" ++ String "010" (String "010" "")
   ++ "-a, --all               do not ignore entries starting with ."
   ++ String "010" ""
   ++ "-A, --almost-all        do not list implied . and .."
   ++ String "010" ""
   ++ "-h, --human-readable    print sizes in human readable format"
   ++ String "010" ""
   ++ "-L, --dereference       follow symbolic link when showing information"
   ++ String "010" ""
   ++ "--help                  show this message" ++ String "010" "")%string.

Section Ls.
Context {W : Type} (K : kernel W).
Variable g : arg_t.   (* [g_args], as [parse_args] left it *)

Definition usage : M W unit := fprintf_stdout usage_text.

(** [isdir] always calls [stat]. *)
Definition isdir (path : string) : M W bool :=
  r <- sys_stat K path ;;
  ret (match r with
       | Some buf => S_ISDIR (st_mode buf)
       | None => false
       end).

(** The loop of [classify]: [dirs] and [files] are the parts of the two
    arrays filled so far ([di] and [fi] are their lengths). *)
Fixpoint classify_loop (rest dirs files : list string)
  : M W (list string * list string) :=
  match rest with
  | [] => ret (dirs, files)
  | f :: rest' =>
      d <- isdir f ;;
      if d then classify_loop rest' (dirs ++ [f]) files
      else classify_loop rest' dirs (files ++ [f])
  end.

Definition classify : M W (list string * list string) :=
  classify_loop (files g) [] [].

(** [get_stat]: [stat] when [follow] is set, [lstat] otherwise; [Some] is
    the return value 0. *)
Definition get_stat (path : string) : M W (option stat_t) :=
  if negb (follow g =? 0) then sys_stat K path else sys_lstat K path.

Definition fmt_owner (uid : Z) : M W string :=
  p <- getpwuid K uid ;;
  ret (match p with None => "" | Some n => n end).

Definition fmt_group (gid : Z) : M W string :=
  p <- getgrgid K gid ;;
  ret (match p with None => "" | Some n => n end).

Definition fmt_time (t : Z) : M W string := strftime_local K t.

(** [fmt_name]: for a symbolic link, ["name -> target"] in a 4096 byte
    buffer; the process exits when the buffer cannot be allocated or the
    link cannot be read.  The terminating NUL is stored at
    [buf[offset + len]]: the text returned is the content of the buffer as
    long as the name, the arrow and the target leave room for it, that is
    [offset + len < 4096].  Otherwise the name is copied with [strdup] and
    the result is returned unchecked: [None] is the NULL pointer. *)
Definition fmt_name (st : stat_t) (name : string) : M W (option string) :=
  if S_ISLNK (st_mode st) then
    ok <- sys_malloc K 4096 ;;
    if negb ok then err_sys K "ls: no memory" ;; exit 1
    else
      let text := (name ++ " -> ")%string in
      let offset := Z.of_nat (String.length text) in
      r <- sys_readlink K name (4096 - offset) ;;
      match r with
      | None => err_sys K ("ls: can not read link " ++ name)%string ;; exit 1
      | Some target => ret (Some (substring 0 4095 text ++ target)%string)
      end
  else sys_strdup K name.

(** [%s] of a [char *]: glibc prints ["(null)"] for the NULL pointer. *)
Definition printf_s (p : option string) : string :=
  match p with
  | Some text => text
  | None => "(null)"
  end.

Definition pr_line (buf : stat_t) (name : string) : M W unit :=
  fprintf_stdout (pad_right 6 (dec (as_long (st_ino buf))) ++ " ")%string ;;
  fprintf_stdout (pad_right 2 (dec (as_int (st_nlink buf))) ++ " ")%string ;;
  fprintf_stdout (fmt_mode (st_mode buf) ++ " ")%string ;;
  owner <- fmt_owner (st_uid buf) ;;
  fprintf_stdout (pad_right 8 owner ++ " ")%string ;;
  group <- fmt_group (st_gid buf) ;;
  fprintf_stdout (pad_right 8 group ++ " ")%string ;;
  fprintf_stdout (fmt_size g (st_size buf) ++ " ")%string ;;
  time <- fmt_time (st_mtime buf) ;;
  fprintf_stdout (time ++ " ")%string ;;
  fname <- fmt_name buf name ;;
  fprintf_stdout (printf_s fname) ;;
  fprintf_stdout (String "010" "").

(** The body of the loop of [do_files]. *)
Definition do_file (file : string) : M W unit :=
  if negb (skip g file =? 0) then ret tt
  else
    r <- get_stat file ;;
    match r with
    | None => err_sys K ("ls: can not access " ++ file)%string
    | Some buf => pr_line buf file
    end.

Fixpoint do_files (files : list string) : M W unit :=
  match files with
  | [] => ret tt
  | file :: rest => do_file file ;; do_files rest
  end.

(** [listdir]: [None] is the NULL returned when the directory cannot be
    opened.  Only the first [malloc] is checked by the source; the [realloc]
    that doubles the array and the [strdup] of each name are used unchecked
    and are taken to succeed, so that the growing array is the list of
    names. *)
Definition listdir (dir : string) : M W (option (list string)) :=
  ok <- sys_malloc K (8 * 32) ;;
  if negb ok then err_sys K "ls: no memory" ;; exit 1
  else
    r <- sys_readdir K dir ;;
    match r with
    | None => err_sys K ("ls: can not access " ++ dir)%string ;; ret None
    | Some names => ret (Some names)
    end.

(** The body of the loop of [do_dirs]. *)
Definition do_dir (dc : Z) (cwd dir : string) : M W unit :=
  r <- listdir dir ;;
  match r with
  | None => ret tt
  | Some files =>
      let files := sort files in
      ok <- sys_chdir K EvChdir dir ;;
      if negb ok then err_sys K "ls: can not chdir"
      else
        (if (0 <? dc) && (1 <? fc g)
         then fprintf_stdout
                (String "010" dir ++ ":" ++ String "010" "")%string
         else ret tt) ;;
        do_files files ;;
        back <- sys_chdir K EvChdirBack cwd ;;
        if negb back then err_sys K "ls: can not chdir" ;; exit 1
        else ret tt
  end.

Fixpoint do_dirs_loop (dc : Z) (cwd : string) (dirs : list string)
  : M W unit :=
  match dirs with
  | [] => ret tt
  | dir :: rest => do_dir dc cwd dir ;; do_dirs_loop dc cwd rest
  end.

(** [do_dirs]: the buffer for [cwd] is allocated unchecked; [getcwd] fills
    it or fails. *)
Definition do_dirs (dirs : list string) : M W unit :=
  r <- sys_getcwd K 4096 ;;
  match r with
  | None => err_sys K "ls: can not get current dir" ;; exit 1
  | Some cwd => do_dirs_loop (Z.of_nat (List.length dirs)) cwd dirs
  end.

(** [sizeof(char * ) * n] for an [int] [n]: the product is computed in
    [size_t]. *)
Definition array_bytes (n : Z) : Z := (8 * n) mod 2 ^ 64.

(** [main] after a successful [parse_args]. *)
Definition main_list : M W Z :=
  d <- sys_malloc K (array_bytes (fc g)) ;;
  f <- sys_malloc K (array_bytes (fc g)) ;;
  if negb d || negb f then ret 1
  else
    c <- classify ;;
    let files := sort (snd c) in
    let dirs := sort (fst c) in
    do_files files ;;
    do_dirs dirs ;;
    ret 0.
End Ls.

Definition main {W} (K : kernel W) (argv : list string) : M W Z :=
  let (r, g) := parse_args argv g_args0 in
  if negb (r =? 0) then usage ;; ret 0
  else main_list K g.

(** The exit status of the process: what [main] returns, or the argument of
    [exit]. *)
Definition exit_status {W} (r : outcome Z * state W * list event) : Z :=
  match fst (fst r) with
  | Ret n => n
  | Exit n => n
  end.

Definition log_of {W A} (r : outcome A * state W * list event)
  : list event := snd r.

(** ** Vocabulary of the statements *)

(** Whether an option character is among the results of [getopt_long]. *)
Definition seen (c : ascii) (codes : list ascii) : bool :=
  existsb (Ascii.eqb c) codes.

(** The results of [getopt_long] that the switch of [parse_args] accepts. *)
Definition valid_opt (c : ascii) : bool :=
  Ascii.eqb c "a" || Ascii.eqb c "A" || Ascii.eqb c "h" || Ascii.eqb c "L".

Definition not_A (c : ascii) : bool := negb (Ascii.eqb c "A").

(** What [stat] says about a path in a given world. *)
Definition is_dir_in {W} (K : kernel W) (w : W) (p : string) : bool :=
  match k_stat K w p with
  | inr buf => S_ISDIR (st_mode buf)
  | inl _ => false
  end.

Definition succeeds {A} (r : Z + A) : bool :=
  match r with
  | inr _ => true
  | inl _ => false
  end.

(** The event and the result of the lookup made by [get_stat]. *)
Definition lookup_event (g : arg_t) (p : string) (ok : bool) : event :=
  if negb (follow g =? 0) then EvStat p ok else EvLstat p ok.

Definition lookup_result {W} (K : kernel W) (g : arg_t) (w : W) (p : string)
  : Z + stat_t :=
  if negb (follow g =? 0) then k_stat K w p else k_lstat K w p.

(** A metadata lookup made the way the [follow] flag asks for. *)
Definition lookup_by_flag (g : arg_t) (ev : event) : Prop :=
  match ev with
  | EvStat _ _ => follow g <> 0
  | EvLstat _ _ => follow g = 0
  | _ => True
  end.

(** The report "ls: can not access ..." on stderr. *)
Definition access_report (ev : event) : bool :=
  match ev with
  | EvStderr text => String.prefix "ls: can not access " text
  | _ => false
  end.

(** The failures after which the program gives up: an allocation it checks,
    [getcwd], the [chdir] back, [readlink]. *)
Definition fatal (ev : event) : bool :=
  match ev with
  | EvMalloc _ ok => negb ok
  | EvGetcwd ok => negb ok
  | EvChdirBack _ ok => negb ok
  | EvReadlink _ ok => negb ok
  | _ => false
  end.

(** An allocation that has failed, whether the program tests it or not. *)
Definition allocation_failed (ev : event) : bool :=
  match ev with
  | EvMalloc _ ok => negb ok
  | EvStrdup _ ok => negb ok
  | _ => false
  end.

(** The failures the program reports, if at all, and carries on. *)
Definition per_entry_failure (ev : event) : bool :=
  match ev with
  | EvStat _ ok => negb ok
  | EvLstat _ ok => negb ok
  | EvOpendir _ ok => negb ok
  | EvChdir _ ok => negb ok
  | _ => false
  end.

Definition is_stdout (ev : event) : bool :=
  match ev with
  | EvStdout _ => true
  | _ => false
  end.

(** The order a comparison function stands for. *)
Definition le_by {A} (compar : A -> A -> Z) (a b : A) : Prop :=
  compar a b <= 0.

(** The order "case-insensitive, byte by byte", written down apart from the
    code: a name is read up to its end (a C string ends at its first NUL),
    each of the twenty-six capital letters of ASCII counts as its small
    letter, every other byte as itself, and two names are compared as
    sequences of bytes, a proper prefix coming first. *)
Definition fold_case (c : ascii) : ascii :=
  match c with
  | "A" => "a" | "B" => "b" | "C" => "c" | "D" => "d" | "E" => "e" | "F" => "f"
  | "G" => "g" | "H" => "h" | "I" => "i" | "J" => "j" | "K" => "k" | "L" => "l"
  | "M" => "m" | "N" => "n" | "O" => "o" | "P" => "p" | "Q" => "q" | "R" => "r"
  | "S" => "s" | "T" => "t" | "U" => "u" | "V" => "v" | "W" => "w" | "X" => "x"
  | "Y" => "y" | "Z" => "z"
  | _ => c
  end%char.

Fixpoint folded (s : string) : list N :=
  match s with
  | EmptyString => []
  | String c r =>
      if (N_of_ascii c =? 0)%N then []
      else N_of_ascii (fold_case c) :: folded r
  end.

Fixpoint lex_le (k1 k2 : list N) : bool :=
  match k1, k2 with
  | [], _ => true
  | _ :: _, [] => false
  | a :: r1, b :: r2 => (a <? b)%N || ((a =? b)%N && lex_le r1 r2)
  end.

Definition case_le (a b : string) : Prop :=
  lex_le (folded a) (folded b) = true.

(** The names the filter keeps. *)
Definition unskipped (g : arg_t) (file : string) : bool := skip g file =? 0.

(** A property of every event a computation logs. *)
Definition log_all {W A} (P : event -> Prop) (m : M W A) : Prop :=
  forall s, Forall P (log_of (m s)).

(** The events [pr_line] may log. *)
Definition line_event (ev : event) : Prop :=
  match ev with
  | EvStdout _ | EvMalloc _ _ | EvStrdup _ _ | EvReadlink _ _ => True
  | EvStderr _ => access_report ev = false
  | _ => False
  end.

Definition any {A} (a : A) : Prop := True.

(** A computation that either returns a value satisfying [Q] without any
    fatal failure in its log, or exits with status 1 after one. *)
Definition gives_up_on_fatal {W A} (Q : A -> Prop) (m : M W A) : Prop :=
  forall s,
    match m s with
    | (Ret a, _, l) => Q a /\ existsb fatal l = false
    | (Exit n, _, l) => n = 1 /\ existsb fatal l = true
    end.

(** ** Reading a printed size back *)

Fixpoint skip_spaces (s : string) : string :=
  match s with
  | EmptyString => EmptyString
  | String c r => if byte_of c =? 32 then skip_spaces r else s
  end.

Fixpoint parse_digits (s : string) (acc : Z) : Z :=
  match s with
  | EmptyString => acc
  | String c r =>
      let d := byte_of c - 48 in
      if (0 <=? d) && (d <=? 9) then parse_digits r (acc * 10 + d) else acc
  end.

(** The number a reader gets from a printed field: leading blanks are
    skipped, then the run of decimal digits is read. *)
Definition parse_decimal (s : string) : Z := parse_digits (skip_spaces s) 0.

(** The run of decimal digits at the head of a text, and what follows it. *)
Fixpoint take_digits (s : string) (acc : Z) : Z * string :=
  match s with
  | EmptyString => (acc, EmptyString)
  | String c r =>
      let d := byte_of c - 48 in
      if (0 <=? d) && (d <=? 9) then take_digits r (acc * 10 + d)
      else (acc, s)
  end.

(** What a reader gets from a scaled size such as ["  4.8M"]: after the
    leading blanks, digits, a point, one more digit and one unit letter.
    The number is given in tenths (48 for 4.8), with the unit. *)
Definition read_scaled (s : string) : option (Z * ascii) :=
  let (whole, rest) := take_digits (skip_spaces s) 0 in
  match rest with
  | String "." (String d (String unit EmptyString)) =>
      let f := byte_of d - 48 in
      if (0 <=? f) && (f <=? 9) then Some (whole * 10 + f, unit) else None
  | _ => None
  end.

(** A text that shows the value [d / 2^k] to one decimal place, with a
    unit: the number read back is a nearest multiple of one tenth, the even
    one when two are equally near. *)
Definition shows_scaled (text : string) (d k : Z) (unit : ascii) : Prop :=
  exists t,
    read_scaled text = Some (t, unit)
    /\ 2 * Z.abs (10 * d - t * 2 ^ k) <= 2 ^ k
    /\ (2 * Z.abs (10 * d - t * 2 ^ k) = 2 ^ k -> Z.even t = true).

(** ** A small concrete world to run the program in *)

Module Toy.
Inductive node :=
| File (size : Z)
| Dir (entries : list string)
| Link (target : string).

(** Paths are looked up as they are written; [cwd] is what [getcwd]
    returns; [heap] lists the results of the coming allocations (once it
    is used up, allocations succeed). *)
Record world := mk_world {
  fs : list (string * node);
  cwd : string;
  heap : list bool
}.

Definition ENOENT : Z := 2.
Definition ENOTDIR : Z := 20.
Definition EINVAL : Z := 22.

Fixpoint lookup (p : string) (l : list (string * node)) : option node :=
  match l with
  | [] => None
  | (q, n) :: r => if String.eqb p q then Some n else lookup p r
  end.

Fixpoint resolve (fuel : nat) (l : list (string * node)) (p : string)
  : option node :=
  match lookup p l with
  | Some (Link t) =>
      match fuel with
      | O => None
      | S k => resolve k l t
      end
  | r => r
  end.

Definition node_stat (n : node) : stat_t :=
  match n with
  | File size => mk_stat 11 1 33188 0 0 size 0         (* 0100644 *)
  | Dir _ => mk_stat 12 2 16877 0 0 4096 0             (* 0040755 *)
  | Link t => mk_stat 13 1 41471 0 0 (Z.of_nat (String.length t)) 0
                                                       (* 0120777 *)
  end.

Definition stat (w : world) (p : string) : Z + stat_t :=
  match resolve 8 (fs w) p with
  | Some n => inr (node_stat n)
  | None => inl ENOENT
  end.

Definition lstat (w : world) (p : string) : Z + stat_t :=
  match lookup p (fs w) with
  | Some n => inr (node_stat n)
  | None => inl ENOENT
  end.

Definition readlink (w : world) (p : string) (bufsiz : Z) : Z + string :=
  match lookup p (fs w) with
  | Some (Link t) =>
      if bufsiz <=? 0 then inl EINVAL
      else inr (substring 0 (Z.to_nat bufsiz) t)
  | Some _ => inl EINVAL
  | None => inl ENOENT
  end.

Definition readdir (w : world) (p : string) : Z + list string :=
  match resolve 8 (fs w) p with
  | Some (Dir es) => inr ("." :: ".." :: es)
  | Some _ => inl ENOTDIR
  | None => inl ENOENT
  end.

Definition chdir (w : world) (p : string) : Z + world :=
  match resolve 8 (fs w) p with
  | Some (Dir _) => inr (mk_world (fs w) p (heap w))
  | Some _ => inl ENOTDIR
  | None => inl ENOENT
  end.

Definition getcwd (w : world) (size : Z) : Z + string :=
  match lookup (cwd w) (fs w) with
  | Some _ => inr (cwd w)
  | None => inl ENOENT
  end.

Definition malloc (w : world) (size : Z) : bool * world :=
  match heap w with
  | [] => (true, w)
  | b :: h => (b, mk_world (fs w) (cwd w) h)
  end.

Definition getpwuid (w : world) (uid : Z) : option string :=
  if uid =? 0 then Some "root" else None.

Definition getgrgid (w : world) (gid : Z) : option string :=
  if gid =? 0 then Some "root" else None.

Definition strftime (w : world) (t : Z) : string := "1970-01-01 00:00".

Definition strerror (e : Z) : string :=
  if e =? ENOENT then "No such file or directory"
  else if e =? ENOMEM then "Cannot allocate memory"
  else if e =? ENOTDIR then "Not a directory"
  else "Invalid argument".

Definition K : kernel world :=
  mk_kernel world stat lstat readlink readdir chdir getcwd malloc
    getpwuid getgrgid strftime strerror.

(** A directory [/home] holding a file, a hidden file and a link to a
    directory; its entries are reachable by their names once inside. *)
Definition home : world :=
  mk_world
    [ ("/home", Dir ["notes"; ".profile"; "docs"]);
      (".", Dir ["notes"; ".profile"; "docs"]);
      ("..", Dir ["home"]);
      ("notes", File 1536);
      (".profile", File 120);
      ("docs", Link "/srv/docs");
      ("/srv/docs", Dir []) ]
    "/home" [].

(** A directory holding nothing but a hidden directory with one file. *)
Definition den : world :=
  mk_world
    [ ("/den", Dir [".hid"]);
      (".hid", Dir ["x"]);
      ("x", File 7) ]
    "/den" [].

(** [home] when the third allocation of the run fails. *)
Definition tight : world := mk_world (fs home) (cwd home) [true; true; false].

Definition start (w : world) : state world := mk_state w 0.
End Toy.

(** ** Vocabulary of the further properties *)

(** The bits of a mode that [fmt_mode] looks at: the file type and the nine
    permission bits (0170777). *)
Definition MODE_SHOWN : Z := 61951.

(** Reading a mode string back: the value of the permission letter at
    position [i]. *)
Definition perm_value (s : string) (i : nat) (c : ascii) (bit : Z) : Z :=
  match String.get i s with
  | Some d => if Ascii.eqb d c then bit else 0
  | None => 0
  end.

Definition perm_bits (s : string) : Z :=
  perm_value s 1 "r" 256 + perm_value s 2 "w" 128 + perm_value s 3 "x" 64
  + perm_value s 4 "r" 32 + perm_value s 5 "w" 16 + perm_value s 6 "x" 8
  + perm_value s 7 "r" 4 + perm_value s 8 "w" 2 + perm_value s 9 "x" 1.

(** A name with its ASCII capitals lowered. *)
Definition lower_char (c : ascii) : ascii :=
  ascii_of_N (Z.to_N (tolower (byte_of c))).

Fixpoint lower_string (s : string) : string :=
  match s with
  | EmptyString => EmptyString
  | String c r => String (lower_char c) (lower_string r)
  end.


(** A call that failed. *)
Definition failed (ev : event) : bool := fatal ev || per_entry_failure ev.

(** Reading a log for the reporting of failures: [pending] says that the
    previous event is a failed call still to be reported.  A failed call
    must be followed at once by a message on stderr, and a message on
    stderr must follow a failed call. *)
Fixpoint scan (pending : bool) (l : list event) : option bool :=
  match l with
  | [] => Some pending
  | ev :: r =>
      match ev with
      | EvStderr _ => if pending then scan false r else None
      | _ => if pending then None else scan (failed ev) r
      end
  end.

(** Reading a log for the working directory: [inside] says that the process
    has entered a directory operand and not yet come back.  Directories are
    opened, entered and [getcwd] is called from the starting directory only;
    entries are looked up and links read from inside only; coming back is
    attempted from inside only. *)
Fixpoint walk (inside : bool) (l : list event) : option bool :=
  match l with
  | [] => Some inside
  | ev :: r =>
      match ev with
      | EvOpendir _ _ | EvGetcwd _ => if inside then None else walk false r
      | EvChdir _ ok => if inside then None else walk ok r
      | EvChdirBack _ ok => if inside then walk (negb ok) r else None
      | EvStat _ _ | EvLstat _ _ | EvReadlink _ _ =>
          if inside then walk true r else None
      | _ => walk inside r
      end
  end.

(** The paths looked up with [stat] or [lstat], in the order of the log. *)
Fixpoint lookups (l : list event) : list string :=
  match l with
  | [] => []
  | EvStat p _ :: r => p :: lookups r
  | EvLstat p _ :: r => p :: lookups r
  | _ :: r => lookups r
  end.

(** What was written to stdout, in one piece. *)
Fixpoint stdout_text (l : list event) : string :=
  match l with
  | [] => ""
  | EvStdout t :: r => (t ++ stdout_text r)%string
  | _ :: r => stdout_text r
  end.


(** A computation whose log, read from [b], is accepted by [walk] and leaves
    it in [f a] when it returns [a]. *)
Definition walks {W A} (b : bool) (f : A -> bool) (m : M W A) : Prop :=
  forall s,
    match m s with
    | (Ret a, _, l) => walk b l = Some (f a)
    | (Exit _, _, l) => exists b', walk b l = Some b'
    end.

(** A computation that reports every failure it meets. *)
Definition reports {W A} (m : M W A) : Prop :=
  forall s, scan false (log_of (m s)) = Some false.



(** The kernel of [Toy] with a [getcwd] that always fails. *)
Definition lost_kernel : kernel Toy.world :=
  mk_kernel Toy.world Toy.stat Toy.lstat Toy.readlink Toy.readdir Toy.chdir
    (fun _ _ => inl Toy.ENOENT) Toy.malloc Toy.getpwuid Toy.getgrgid
    Toy.strftime Toy.strerror.

(** * Properties *)

(** ** The embedding at work *)

Example fmt_size_ex2 : fmt_size (set_human g_args0 1) 1280 = "   1.2K".
Proof. reflexivity. Qed.

Example fmt_size_ex4 : fmt_size (set_human g_args0 1) 1048575 = "1024.0K".
Proof. reflexivity. Qed.

Example sort_ex :
  sort ["b"; "A"; "a"; "C"; ".x"] = [".x"; "A"; "a"; "b"; "C"].
Proof. reflexivity. Qed.

Example getopt_ex :
  getopt_long ["-aA"; "x"; "--he"; "--"; "-y"] =
  (["a"%char; "A"%char; "?"%char], ["x"; "-y"]).
Proof. reflexivity. Qed.

Example parse_args_ex :
  parse_args ["ls"; "-A"; "--all"; "-h"] g_args0 = (0, mk_args 1 0 1 0 ["."] 1).
Proof. reflexivity. Qed.

Example fmt_size_ex1 : fmt_size (set_human g_args0 1) 1536 = "   1.5K".
Proof. reflexivity. Qed.

Example fmt_size_ex3 : fmt_size g_args0 123456789 = "123456789".
Proof. reflexivity. Qed.

Example fmt_mode_ex : fmt_mode 16877 = "drwxr-xr-x".   (* 040755 *)
Proof. reflexivity. Qed.

(** ** The comparison is a total preorder *)

Lemma byte_of_range (c : ascii) : 0 <= byte_of c < 256.
Proof.
  unfold byte_of. pose proof (N_ascii_bounded c) as H.
  split; [apply N2Z.is_nonneg | ].
  change 256 with (Z.of_N 256). apply N2Z.inj_lt. exact H.
Qed.

Lemma tolower_nonneg (c : Z) : 0 <= c -> 0 <= tolower c.
Proof. unfold tolower. destruct (_ && _); lia. Qed.

Lemma peek_nonneg (s : string) : 0 <= peek s.
Proof. destruct s; simpl; [lia | apply byte_of_range]. Qed.

Lemma strcasecmp_antisym (s1 s2 : string) :
  strcasecmp s2 s1 = - strcasecmp s1 s2.
Proof.
  revert s2. induction s1 as [| a r1 IH]; intros [| b r2]; simpl;
    change (tolower 0) with 0.
  - reflexivity.
  - destruct (tolower (byte_of b) =? 0) eqn:E0; lia.
  - destruct (tolower (byte_of a) =? 0) eqn:E0; lia.
  - destruct (tolower (byte_of a) =? 0) eqn:Ea;
      destruct (tolower (byte_of b) =? 0) eqn:Eb;
      destruct (tolower (byte_of a) =? tolower (byte_of b)) eqn:Eab;
      destruct (tolower (byte_of b) =? tolower (byte_of a)) eqn:Eba;
      try apply IH; lia.
Qed.

Lemma cmp_total (a b : string) : 0 < cmp a b -> cmp b a <= 0.
Proof. unfold cmp. rewrite (strcasecmp_antisym a b). lia. Qed.

Lemma strcasecmp_trans (s1 s2 s3 : string) :
  strcasecmp s1 s2 <= 0 -> strcasecmp s2 s3 <= 0 -> strcasecmp s1 s3 <= 0.
Proof.
  revert s2 s3. induction s1 as [| a r1 IH]; intros s2 s3.
  - intros _ _. simpl. pose proof (tolower_nonneg _ (peek_nonneg s3)). lia.
  - simpl.
    pose proof (tolower_nonneg _ (proj1 (byte_of_range a))) as Ha.
    pose proof (tolower_nonneg _ (peek_nonneg s3)) as H3.
    destruct (tolower (byte_of a) =? 0) eqn:Ea; [ lia | ].
    destruct s2 as [| b r2]; simpl.
    + change (tolower 0) with 0. rewrite Ea. lia.
    + pose proof (tolower_nonneg _ (proj1 (byte_of_range b))) as Hb.
      destruct (tolower (byte_of b) =? 0) eqn:Eb.
      * destruct (tolower (byte_of a) =? tolower (byte_of b)) eqn:Eab; lia.
      * destruct (tolower (byte_of a) =? tolower (byte_of b)) eqn:Eab;
          destruct (tolower (byte_of b) =? tolower (peek s3)) eqn:Eb3;
          destruct (tolower (byte_of a) =? tolower (peek s3)) eqn:Ea3;
          try lia.
        intros H12 H23. exact (IH _ _ H12 H23).
Qed.

Lemma cmp_trans (a b c : string) : cmp a b <= 0 -> cmp b c <= 0 -> cmp a c <= 0.
Proof. apply strcasecmp_trans. Qed.

(** ** A stable merge sort sorts, permutes, and fixes sorted arrays *)

Section QsortFacts.
Context {A : Type} (compar : A -> A -> Z).
Hypothesis compar_total : forall a b, 0 < compar a b -> compar b a <= 0.

Let le := le_by compar.

Lemma merge_nil_r (l : list A) : merge compar l [] = l.
Proof. destruct l; reflexivity. Qed.

Lemma merge_nil_l (l : list A) : merge compar [] l = l.
Proof. destruct l; reflexivity. Qed.

Lemma merge_perm (l1 l2 : list A) :
  Permutation (merge compar l1 l2) (l1 ++ l2).
Proof.
  revert l2. induction l1 as [| a r1 IH1]; intros l2;
    [rewrite merge_nil_l; reflexivity | ].
  induction l2 as [| b r2 IH2].
  - rewrite merge_nil_r, app_nil_r. reflexivity.
  - simpl. destruct (compar a b <=? 0).
    + constructor. apply IH1.
    + etransitivity; [ constructor; exact IH2 | ].
      apply (Permutation_middle (a :: r1) r2 b).
Qed.

Lemma merge_hd (x : A) (l1 l2 : list A) :
  HdRel le x l1 -> HdRel le x l2 -> HdRel le x (merge compar l1 l2).
Proof.
  intros H1 H2. destruct l1 as [| a r1]; [rewrite merge_nil_l; exact H2 | ].
  destruct l2 as [| b r2]; [exact H1 | ].
  simpl. destruct (compar a b <=? 0); constructor.
  - inversion H1; assumption.
  - inversion H2; assumption.
Qed.

Lemma merge_sorted (l1 l2 : list A) :
  Sorted le l1 -> Sorted le l2 -> Sorted le (merge compar l1 l2).
Proof.
  revert l2. induction l1 as [| a r1 IH1]; intros l2 S1 S2;
    [rewrite merge_nil_l; exact S2 | ].
  induction l2 as [| b r2 IH2]; [exact S1 | ].
  simpl. destruct (compar a b <=? 0) eqn:E.
  - inversion S1; subst. constructor.
    + apply IH1; assumption.
    + apply merge_hd; [assumption | ].
      constructor. unfold le, le_by. lia.
  - inversion S2; subst. constructor.
    + apply IH2; assumption.
    + apply (merge_hd b (a :: r1) r2); [ | assumption].
      constructor. unfold le, le_by. apply compar_total. lia.
Qed.

(** Induction following the recursion of [qsort]. *)
Lemma qsort_split_ind (P : list A -> Prop) :
  P [] ->
  (forall a, P [a]) ->
  (forall a b r,
      P (firstn (Nat.div2 (List.length (a :: b :: r))) (a :: b :: r)) ->
      P (skipn (Nat.div2 (List.length (a :: b :: r))) (a :: b :: r)) ->
      P (a :: b :: r)) ->
  forall base, P base.
Proof.
  intros P0 P1 P2 base.
  remember (List.length base) as n eqn:En. revert base En.
  induction n as [n IH] using lt_wf_ind.
  intros [| a [| b r]] En; [exact P0 | apply P1 | ].
  pose proof (Nat.div2_decr (List.length r) (List.length r)) as Hd.
  apply P2.
  - eapply IH; [ | reflexivity]. subst n.
    rewrite length_firstn. simpl List.length. simpl Nat.div2. lia.
  - eapply IH; [ | reflexivity]. subst n.
    rewrite length_skipn. simpl List.length. simpl Nat.div2.
    generalize (Nat.div2 (List.length r)). intros; lia.
Qed.

Lemma qsort_perm (base : list A) : Permutation (qsort compar base) base.
Proof.
  induction base as [| a | a b r H1 H2] using qsort_split_ind;
    simp qsort; try reflexivity.
  cbv zeta. etransitivity; [apply merge_perm | ].
  etransitivity; [apply Permutation_app; eassumption | ].
  rewrite firstn_skipn. reflexivity.
Qed.

Lemma qsort_sorted (base : list A) : Sorted le (qsort compar base).
Proof.
  induction base as [| a | a b r H1 H2] using qsort_split_ind;
    simp qsort.
  - constructor.
  - repeat constructor.
  - cbv zeta. apply merge_sorted; assumption.
Qed.

Hypothesis compar_trans :
  forall a b c, compar a b <= 0 -> compar b c <= 0 -> compar a c <= 0.

Lemma merge_ordered (l1 l2 : list A) :
  (forall a b, In a l1 -> In b l2 -> le a b) ->
  merge compar l1 l2 = l1 ++ l2.
Proof.
  revert l2. induction l1 as [| a r1 IH]; intros l2 H;
    [apply merge_nil_l | ].
  destruct l2 as [| b r2].
  - rewrite app_nil_r. reflexivity.
  - simpl.
    assert (E : (compar a b <=? 0) = true).
    { apply Z.leb_le. apply H; left; reflexivity. }
    rewrite E. f_equal. apply IH. intros x y Hx Hy.
    apply H; [right | ]; assumption.
Qed.

Lemma strongly_sorted_split (l1 l2 : list A) :
  StronglySorted le (l1 ++ l2) ->
  StronglySorted le l1 /\ StronglySorted le l2 /\
  (forall a b, In a l1 -> In b l2 -> le a b).
Proof.
  induction l1 as [| x r IH]; simpl; intros S.
  - repeat split; [constructor | exact S | intros a b []].
  - inversion S as [| ? ? S' F]; subst.
    destruct (IH S') as (S1 & S2 & C).
    rewrite Forall_app in F. destruct F as [F1 F2].
    repeat split; [constructor; assumption | assumption | ].
    intros a b [<- | Ha] Hb.
    + rewrite Forall_forall in F2. apply F2, Hb.
    + apply C; assumption.
Qed.

Lemma qsort_fixes_sorted (base : list A) :
  StronglySorted le base -> qsort compar base = base.
Proof.
  induction base as [| a | a b r H1 H2] using qsort_split_ind;
    simp qsort; intros S; try reflexivity.
  cbv zeta.
  set (n1 := Nat.div2 (List.length (a :: b :: r))) in *.
  rewrite <- (firstn_skipn n1 (a :: b :: r)) in S.
  destruct (strongly_sorted_split _ _ S) as (S1 & S2 & C).
  rewrite H1 by exact S1. rewrite H2 by exact S2.
  rewrite (merge_ordered _ _ C). apply firstn_skipn.
Qed.

Lemma qsort_idempotent (base : list A) :
  qsort compar (qsort compar base) = qsort compar base.
Proof.
  apply qsort_fixes_sorted. apply Sorted_StronglySorted.
  - intros x y z. apply compar_trans.
  - apply qsort_sorted.
Qed.
End QsortFacts.

(** ** The comparison is the case-insensitive order *)

Lemma tolower_fold (c : ascii) :
  tolower (byte_of c) = Z.of_N (N_of_ascii (fold_case c)).
Proof. destruct c as [[|] [|] [|] [|] [|] [|] [|] [|]]; reflexivity. Qed.

Lemma byte_is_zero (c : ascii) : (byte_of c =? 0) = (N_of_ascii c =? 0)%N.
Proof. unfold byte_of. destruct (N_of_ascii c); reflexivity. Qed.

Lemma tolower_is_zero (c : Z) : 0 <= c -> (tolower c =? 0) = (c =? 0).
Proof.
  intros H. unfold tolower. destruct (_ && _) eqn:E; [ | reflexivity].
  apply andb_true_iff in E. lia.
Qed.

(** [cmp] puts [a] before or level with [b] exactly when the folded bytes of
    [a] come first, or are the same. *)
Lemma cmp_case_le (a b : string) : cmp a b <= 0 <-> case_le a b.
Proof.
  unfold cmp, case_le. revert b. induction a as [| x r1 IH]; intros b.
  - simpl. pose proof (tolower_nonneg _ (peek_nonneg b)).
    split; [reflexivity | lia].
  - cbn [strcasecmp folded].
    pose proof (byte_of_range x) as Hx.
    rewrite (tolower_is_zero _ (proj1 Hx)), byte_is_zero.
    destruct (N_of_ascii x =? 0)%N eqn:Ex.
    + rewrite <- byte_is_zero in Ex. apply Z.eqb_eq in Ex. rewrite Ex.
      change (tolower 0) with 0.
      pose proof (tolower_nonneg _ (peek_nonneg b)).
      split; [reflexivity | lia].
    + assert (Hc1 : 0 < tolower (byte_of x)).
      { rewrite <- byte_is_zero, <- (tolower_is_zero _ (proj1 Hx)) in Ex.
        pose proof (tolower_nonneg _ (proj1 Hx)). lia. }
      destruct b as [| y r2]; cbn [peek advance folded lex_le].
      * change (tolower 0) with 0.
        destruct (tolower (byte_of x) =? 0) eqn:E0; [lia | ].
        split; [lia | discriminate].
      * pose proof (byte_of_range y) as Hy.
        destruct (N_of_ascii y =? 0)%N eqn:Ey.
        -- rewrite <- byte_is_zero in Ey. apply Z.eqb_eq in Ey. rewrite Ey.
           change (tolower 0) with 0.
           destruct (tolower (byte_of x) =? 0) eqn:E0; [lia | ].
           split; [lia | discriminate].
        -- rewrite !tolower_fold in *. cbn [lex_le].
           set (p := N_of_ascii (fold_case x)) in *.
           set (q := N_of_ascii (fold_case y)) in *.
           destruct (Z.of_N p =? Z.of_N q) eqn:Epq.
           ++ assert (E : (p =? q)%N = true) by (apply N.eqb_eq; lia).
              assert (L : (p <? q)%N = false) by (apply N.ltb_ge; lia).
              rewrite E, L. cbn [orb andb]. apply IH.
           ++ assert (E : (p =? q)%N = false) by (apply N.eqb_neq; lia).
              rewrite E, andb_false_l, orb_false_r, N.ltb_lt. lia.
Qed.

Lemma lex_le_antisym (k1 k2 : list N) :
  lex_le k1 k2 = true -> lex_le k2 k1 = true -> k1 = k2.
Proof.
  revert k2. induction k1 as [| a r IH]; intros [| b r2]; cbn [lex_le];
    try discriminate; [reflexivity | ].
  intros H1 H2.
  apply orb_true_iff in H1. apply orb_true_iff in H2.
  rewrite !andb_true_iff, !N.ltb_lt, !N.eqb_eq in *.
  destruct H1 as [H1 | [E1 L1]]; destruct H2 as [H2 | [E2 L2]]; try lia.
  subst b. f_equal. apply IH; assumption.
Qed.

(** Two arrangements of the same keys, both in order, are the same. *)
Lemma sorted_keys_unique (k1 k2 : list (list N)) :
  Permutation k1 k2 ->
  StronglySorted (fun a b => lex_le a b = true) k1 ->
  StronglySorted (fun a b => lex_le a b = true) k2 ->
  k1 = k2.
Proof.
  revert k2. induction k1 as [| a r IH]; intros k2 P S1 S2.
  - apply Permutation_nil in P. auto.
  - destruct k2 as [| b r2];
      [apply Permutation_sym, Permutation_nil in P; discriminate | ].
    inversion S1 as [| ? ? S1' F1]; inversion S2 as [| ? ? S2' F2]; subst.
    assert (E : a = b).
    { assert (Hb : In b (a :: r)).
      { eapply Permutation_in; [symmetry; exact P | left; reflexivity]. }
      assert (Ha : In a (b :: r2)).
      { eapply Permutation_in; [exact P | left; reflexivity]. }
      rewrite Forall_forall in F1, F2.
      destruct Hb as [-> | Hb]; [reflexivity | ].
      destruct Ha as [-> | Ha]; [reflexivity | ].
      apply lex_le_antisym; [apply F1, Hb | apply F2, Ha]. }
    subst b. f_equal.
    apply IH; [eapply Permutation_cons_inv; exact P | assumption | assumption].
Qed.

Lemma folded_sorted (l : list string) :
  Sorted (le_by cmp) l ->
  StronglySorted (fun a b => lex_le a b = true) (map folded l).
Proof.
  intros S. apply Sorted_StronglySorted in S;
    [ | intros x y z; apply cmp_trans].
  induction S as [| a r S IH F]; simpl; constructor; [exact IH | ].
  apply Forall_map. eapply Forall_impl; [ | exact F].
  intros b Hb. apply cmp_case_le. exact Hb.
Qed.

(** What the contract of [qsort] (the result is the array rearranged, in
    the order of the comparison) fixes about the result: the names up to the
    case of their letters. *)
Lemma contract_determines_folded (l1 l2 : list string) :
  Permutation l1 l2 -> Sorted (le_by cmp) l1 -> Sorted (le_by cmp) l2 ->
  map folded l1 = map folded l2.
Proof.
  intros P S1 S2. apply sorted_keys_unique.
  - apply Permutation_map, P.
  - apply folded_sorted, S1.
  - apply folded_sorted, S2.
Qed.

Lemma sorted_case_le (l : list string) :
  Sorted (le_by cmp) l -> Sorted case_le l.
Proof.
  induction 1 as [| a r S IH H]; constructor; [exact IH | ].
  destruct H as [| b r' Hab]; constructor. apply cmp_case_le, Hab.
Qed.

(** C8: for every sequence of names, [sort] returns a rearrangement of it
    that is non-decreasing in the case-insensitive byte-wise order (capital
    letters count as small ones, names are compared byte by byte, a prefix
    first), which is the order [cmp] decides; sorting the result again
    leaves it unchanged.  Of this, the order is owed to [cmp] and to the
    contract of [qsort] alone: any [qsort] that rearranges its array into
    the order of [cmp] gives the same names up to the case of their letters,
    the first time and the second; that the second pass moves nothing at all
    is owed to the merge sort glibc uses, which keeps names that differ only
    in case in the order it finds them. *)
Theorem sort_nondecreasing_idempotent (names : list string) :
  Sorted case_le (sort names)
  /\ Sorted (fun a b => cmp a b <= 0) (sort names)
  /\ Permutation (sort names) names
  /\ sort (sort names) = sort names
  /\ (forall a b, cmp a b <= 0 <-> case_le a b)
  /\ (forall srt : list string -> list string,
        (forall l, Permutation (srt l) l) ->
        (forall l, Sorted (fun a b => cmp a b <= 0) (srt l)) ->
        Sorted case_le (srt names)
        /\ map folded (srt names) = map folded (sort names)
        /\ map folded (srt (srt names)) = map folded (srt names)).
Proof.
  assert (S : Sorted (le_by cmp) (sort names)).
  { apply qsort_sorted. exact cmp_total. }
  assert (P : Permutation (sort names) names) by apply qsort_perm.
  split; [apply sorted_case_le, S | ].
  split; [exact S | ].
  split; [exact P | ].
  split; [apply qsort_idempotent; [exact cmp_total | exact cmp_trans] | ].
  split; [exact cmp_case_le | ].
  intros srt Hperm Hsorted.
  split; [apply sorted_case_le, Hsorted | ].
  split; apply contract_determines_folded;
    try apply Hsorted; try exact S.
  - etransitivity; [apply Hperm | symmetry; exact P].
  - apply Hperm.
Qed.

Lemma sort_nondecreasing_idempotent_witness :
  sort ["b"; "A"; "a"; "C"; ".x"] = [".x"; "A"; "a"; "b"; "C"]
  /\ map folded (sort (rev ["b"; "A"; "a"; "C"; ".x"]))
     = map folded (sort ["b"; "A"; "a"; "C"; ".x"]).
Proof.
  split; [reflexivity | ].
  destruct (sort_nondecreasing_idempotent ["b"; "A"; "a"; "C"; ".x"])
    as (_ & _ & _ & _ & _ & H).
  destruct (H (fun l => sort (rev l))) as (_ & E & _).
  - intros l. etransitivity; [apply qsort_perm | ].
    symmetry. apply Permutation_rev.
  - intros l. apply qsort_sorted. exact cmp_total.
  - exact E.
Defined.

(** Capital and small letters are level, and a capital sorts among the
    small letters, not before them as its byte would. *)
Example cmp_ignores_case :
  cmp "A" "a" = 0 /\ cmp "a" "B" < 0 /\ cmp "B" "a" > 0
  /\ cmp "Zed" "alpha" > 0 /\ cmp "_" "A" < 0 /\ cmp "ab" "abc" < 0
  /\ sort ["Zed"; "alpha"; "B"; "a"] = ["a"; "alpha"; "B"; "Zed"].
Proof. repeat split. Qed.

(** Names that differ only in case keep the order they had: this is the
    merge sort; a [qsort] that is not stable may order them otherwise, as
    this one, which sorts the array read backwards, shows. *)
Example ties_keep_their_order :
  sort ["a"; "A"] = ["a"; "A"] /\ sort ["A"; "a"] = ["A"; "a"]
  /\ sort (rev ["a"; "A"]) = ["A"; "a"]
  /\ sort (rev (sort (rev ["a"; "A"]))) = ["a"; "A"].
Proof. repeat split. Qed.

(** ** The filter and the two flags *)

Lemma byte_of_inj (c d : ascii) : byte_of c = byte_of d -> c = d.
Proof.
  unfold byte_of. intros H. apply N2Z.inj in H.
  rewrite <- (ascii_N_embedding c), <- (ascii_N_embedding d), H. reflexivity.
Qed.

Lemma peek_dot (file : string) :
  peek file = 46 <-> exists r, file = String "." r.
Proof.
  split.
  - destruct file as [| c r]; simpl; [discriminate | ]. intros H.
    exists r. f_equal. apply byte_of_inj. rewrite H. reflexivity.
  - intros [r ->]. reflexivity.
Qed.

Lemma strcmp_dot (file : string) :
  c_string file = true -> (strcmp file "." = 0 <-> file = ".").
Proof.
  intros Hc. split; [ | intros ->; reflexivity].
  destruct file as [| c [| d r]]; simpl in *.
  - discriminate.
  - change (byte_of ".") with 46.
    destruct (byte_of c =? 0) eqn:E0; [discriminate | ].
    destruct (byte_of c =? 46) eqn:E1; [ | lia].
    intros _. f_equal. apply byte_of_inj. change (byte_of ".") with 46. lia.
  - change (byte_of ".") with 46.
    destruct (byte_of c =? 0) eqn:E0; [discriminate | ].
    destruct (byte_of c =? 46) eqn:E1; [ | lia].
    destruct (byte_of d =? 0) eqn:E2; [discriminate | ].
    simpl. lia.
Qed.

Lemma strcmp_dotdot (file : string) :
  c_string file = true -> (strcmp file ".." = 0 <-> file = "..").
Proof.
  intros Hc. split; [ | intros ->; reflexivity].
  destruct file as [| c [| d [| e r]]]; simpl in *;
    change (byte_of ".") with 46.
  - discriminate.
  - destruct (byte_of c =? 0) eqn:E0; [discriminate | ].
    destruct (byte_of c =? 46) eqn:E1; lia.
  - destruct (byte_of c =? 0) eqn:E0; [discriminate | ].
    destruct (byte_of c =? 46) eqn:E1; [ | lia].
    destruct (byte_of d =? 0) eqn:E2; [discriminate | ].
    destruct (byte_of d =? 46) eqn:E3; [ | lia].
    intros _. f_equal; [ | f_equal]; apply byte_of_inj;
      change (byte_of ".") with 46; lia.
  - destruct (byte_of c =? 0) eqn:E0; [discriminate | ].
    destruct (byte_of c =? 46) eqn:E1; [ | lia].
    destruct (byte_of d =? 0) eqn:E2; [discriminate | ].
    destruct (byte_of d =? 46) eqn:E3; [ | lia].
    destruct (byte_of e =? 0) eqn:E4; [discriminate | ].
    simpl. lia.
Qed.

Lemma skip_all (g : arg_t) (file : string) : all g <> 0 -> skip g file = 0.
Proof.
  intros H. unfold skip. destruct (all g =? 0) eqn:E; [lia | reflexivity].
Qed.

Lemma skip_default (g : arg_t) (file : string) :
  all g = 0 -> almost g = 0 ->
  skip g file = if peek file =? 46 then 1 else 0.
Proof. intros Ha Hb. unfold skip. rewrite Ha, Hb. reflexivity. Qed.

Lemma skip_no_dot (g : arg_t) (file : string) :
  peek file <> 46 -> skip g file = 0.
Proof.
  intros H. unfold skip.
  destruct (negb (all g =? 0)); [reflexivity | ].
  destruct (_ && _); [reflexivity | ].
  destruct (peek file =? 46) eqn:E; [lia | reflexivity].
Qed.

Ltac parse_step IH :=
  let H := fresh "H" in
  intros H; apply IH in H; simpl in H; revert H; unfold seen; simpl;
  repeat match goal with
         | |- context [existsb ?f ?r] => destruct (existsb f r)
         end;
  intros (? & ? & ? & ? & ? & ?); repeat split; assumption.

Lemma parse_opts_fields (codes : list ascii) (g g' : arg_t) :
  parse_opts codes g = (true, g') ->
  all g' = (if seen "a" codes then 1 else all g)
  /\ almost g' = (if seen "A" codes then 1 else almost g)
  /\ human g' = (if seen "h" codes then 1 else human g)
  /\ follow g' = (if seen "L" codes then 1 else follow g)
  /\ files g' = files g /\ fc g' = fc g.
Proof.
  revert g. induction codes as [| c r IH]; intros g; simpl.
  - intros [= <-]. repeat split.
  - destruct (Ascii.eqb_spec c "a") as [-> | Na]; [parse_step IH | ].
    destruct (Ascii.eqb_spec c "A") as [-> | NA]; [parse_step IH | ].
    destruct (Ascii.eqb_spec c "h") as [-> | Nh]; [parse_step IH | ].
    destruct (Ascii.eqb_spec c "L") as [-> | NL]; [parse_step IH | ].
    discriminate.
Qed.

Lemma parse_opts_ok (codes : list ascii) (g : arg_t) :
  fst (parse_opts codes g) = forallb valid_opt codes.
Proof.
  revert g. induction codes as [| c r IH]; intros g; simpl; [reflexivity | ].
  unfold valid_opt.
  destruct (Ascii.eqb c "a"); [apply IH | ].
  destruct (Ascii.eqb c "A"); [apply IH | ].
  destruct (Ascii.eqb c "h"); [apply IH | ].
  destruct (Ascii.eqb c "L"); [apply IH | ].
  reflexivity.
Qed.

Lemma forallb_filter_valid (codes : list ascii) :
  forallb valid_opt codes = true ->
  forallb valid_opt (filter not_A codes) = true.
Proof.
  induction codes as [| c r IH]; simpl; [reflexivity | ].
  intros H. apply andb_true_iff in H. destruct H as [Hc Hr].
  destruct (not_A c); simpl; [rewrite Hc | ]; auto.
Qed.

Lemma seen_filter (c : ascii) (codes : list ascii) :
  seen c (filter not_A codes) = negb (Ascii.eqb c "A") && seen c codes.
Proof.
  unfold seen, not_A. induction codes as [| d r IH]; simpl.
  - rewrite andb_false_r. reflexivity.
  - destruct (Ascii.eqb_spec d "A") as [-> | Nd]; simpl.
    + rewrite IH. destruct (Ascii.eqb c "A"); reflexivity.
    + rewrite IH. destruct (Ascii.eqb_spec c d) as [-> | Ncd]; simpl.
      * destruct (Ascii.eqb_spec d "A"); [contradiction | reflexivity].
      * reflexivity.
Qed.

(** C3: the filter never suppresses under show-all; under show-almost-all
    alone it suppresses exactly "." and ".."; by default exactly the names
    that begin with "."; and when both -a and -A are given, [parse_args]
    clears [almost], so the options are those of -a alone. *)
Theorem skip_policy_and_flags
  (g : arg_t) (file : string) (codes : list ascii) (operands : list string) :
  c_string file = true ->
  (all g <> 0 -> skip g file = 0)
  /\ (all g = 0 -> almost g <> 0 ->
      (skip g file <> 0 <-> file = "." \/ file = ".."))
  /\ (all g = 0 -> almost g = 0 ->
      (skip g file <> 0 <-> exists r, file = String "." r))
  /\ (fst (parse_opts codes g_args0) = true ->
      seen "a" codes = true -> seen "A" codes = true ->
      let both := finish_args (snd (parse_opts codes g_args0)) operands in
      let only_a :=
        finish_args (snd (parse_opts (filter not_A codes) g_args0)) operands in
      fst (parse_opts (filter not_A codes) g_args0) = true
      /\ all both <> 0 /\ almost both = 0 /\ both = only_a
      /\ skip both file = 0).
Proof.
  intros Hc. split; [apply skip_all | ]. split; [ | split].
  - intros Ha Hb. unfold skip. rewrite Ha. simpl.
    destruct (almost g =? 0) eqn:E; [lia | ]. simpl.
    pose proof (strcmp_dot file Hc) as H1.
    pose proof (strcmp_dotdot file Hc) as H2.
    destruct (strcmp file "." =? 0) eqn:E1; simpl.
    + assert (file = ".") as -> by (apply H1; lia). simpl. split; auto. lia.
    + destruct (strcmp file ".." =? 0) eqn:E2; simpl.
      * assert (file = "..") as -> by (apply H2; lia). simpl. split; auto. lia.
      * split; [lia | ]. intros [F | F]; [apply H1 in F | apply H2 in F]; lia.
  - intros Ha Hb. rewrite (skip_default g file Ha Hb), <- peek_dot.
    destruct (peek file =? 46) eqn:E; lia.
  - intros Hok Sa SA both only_a.
    assert (Hok' : fst (parse_opts (filter not_A codes) g_args0) = true).
    { rewrite parse_opts_ok in *. apply forallb_filter_valid, Hok. }
    destruct (parse_opts codes g_args0) as [ok g1] eqn:P1.
    destruct (parse_opts (filter not_A codes) g_args0) as [ok' g2] eqn:P2.
    simpl in Hok, Hok'. subst ok ok'.
    apply parse_opts_fields in P1. apply parse_opts_fields in P2.
    rewrite !seen_filter in P2. rewrite Sa, SA in *. simpl in P1, P2.
    destruct P1 as (A1 & B1 & C1 & D1 & _).
    destruct P2 as (A2 & B2 & C2 & D2 & _).
    assert (Hboth : both = only_a).
    { subst both only_a. unfold finish_args. simpl in *.
      rewrite A1, B1, A2, B2. simpl. unfold set_files, set_almost. simpl.
      rewrite A1, A2, C1, C2, D1, D2, B2. reflexivity. }
    assert (Hall : all both = 1).
    { subst both. unfold finish_args. simpl in *. rewrite A1, B1. simpl.
      destruct (Z.of_nat (List.length operands) =? 0); simpl; exact A1. }
    assert (Halm : almost both = 0).
    { subst both. unfold finish_args. simpl in *. rewrite A1, B1. simpl.
      destruct (Z.of_nat (List.length operands) =? 0); reflexivity. }
    split; [reflexivity | ]. split; [lia | ]. split; [exact Halm | ].
    split; [exact Hboth | ]. apply skip_all. lia.
Qed.

Lemma skip_policy_and_flags_witness :
  c_string ".." = true
  /\ skip (mk_args 0 1 0 0 ["."] 1) ".." <> 0
  /\ skip (mk_args 0 1 0 0 ["."] 1) ".." = 1
  /\ finish_args (snd (parse_opts ["A"%char; "a"%char] g_args0)) ["x"]
     = mk_args 1 0 0 0 ["x"] 1.
Proof.
  pose proof (skip_policy_and_flags (mk_args 0 1 0 0 ["."] 1) ".."
                ["A"%char; "a"%char] ["x"] eq_refl) as (_ & H2 & _ & H4).
  split; [reflexivity | ].
  split; [apply (H2 eq_refl); [discriminate | right; reflexivity] | ].
  split; [reflexivity | ].
  destruct (H4 eq_refl eq_refl eq_refl) as (_ & _ & _ & Heq & _).
  rewrite Heq. reflexivity.
Defined.

(** ** The size field *)

Lemma digit_byte (d : Z) : 0 <= d < 10 -> byte_of (digit_char d) = 48 + d.
Proof.
  intros H. unfold byte_of, digit_char.
  rewrite N_ascii_embedding.
  - apply Z2N.id. lia.
  - change 256%N with (Z.to_N 256). apply Z2N.inj_lt; lia.
Qed.

Lemma parse_digit_char (d : Z) (r : string) (a : Z) :
  0 <= d < 10 ->
  parse_digits (String (digit_char d) r) a = parse_digits r (a * 10 + d).
Proof.
  intros H. simpl. rewrite (digit_byte d H).
  replace (48 + d - 48) with d by lia.
  destruct (0 <=? d) eqn:E1; [ | lia].
  destruct (d <=? 9) eqn:E2; [ | lia].
  reflexivity.
Qed.

Lemma parse_dec_digits (fuel : nat) :
  forall n acc a, 0 <= n < 10 ^ Z.of_nat fuel ->
  exists k, parse_digits (dec_digits fuel n acc) a
            = parse_digits acc (a * 10 ^ k + n) /\ 0 <= k.
Proof.
  induction fuel as [| f IH]; intros n acc a Hn.
  - exists 0. simpl in *. split; [f_equal; lia | lia].
  - simpl dec_digits.
    assert (Hm : 0 <= n mod 10 < 10) by (apply Z.mod_pos_bound; lia).
    destruct (n <? 10) eqn:E.
    + exists 1. rewrite parse_digit_char by exact Hm.
      rewrite Z.mod_small by lia. split; [f_equal; lia | lia].
    + assert (Hq : 0 <= n / 10 < 10 ^ Z.of_nat f).
      { split; [apply Z.div_pos; lia | ].
        apply Z.div_lt_upper_bound; [lia | ].
        rewrite Nat2Z.inj_succ, Z.pow_succ_r in Hn by lia. lia. }
      destruct (IH (n / 10) (String (digit_char (n mod 10)) acc) a Hq)
        as (k & Hk & Hk0).
      exists (k + 1). rewrite Hk, parse_digit_char by exact Hm.
      split; [ | lia]. f_equal.
      rewrite Z.pow_add_r by lia. pose proof (Z.div_mod n 10). lia.
Qed.

Lemma skip_dec_digits (fuel : nat) :
  forall n acc, (0 < fuel)%nat -> 0 <= n ->
  skip_spaces (dec_digits fuel n acc) = dec_digits fuel n acc.
Proof.
  induction fuel as [| f IH]; intros n acc Hf Hn; [lia | ].
  assert (Hd : forall m r, 0 <= m ->
             skip_spaces (String (digit_char (m mod 10)) r)
             = String (digit_char (m mod 10)) r).
  { intros m r Hm. simpl. rewrite digit_byte by (apply Z.mod_pos_bound; lia).
    pose proof (Z.mod_pos_bound m 10).
    destruct (48 + m mod 10 =? 32) eqn:E; [lia | reflexivity]. }
  simpl dec_digits. destruct (n <? 10); [apply Hd, Hn | ].
  destruct f as [| f']; [apply Hd, Hn | ].
  apply IH; [lia | apply Z.div_pos; lia].
Qed.

Lemma skip_spaces_app (k : nat) (s : string) :
  skip_spaces (spaces k ++ s)%string = skip_spaces s.
Proof. induction k; simpl; auto. Qed.

(** Reading [%7ld] of a non-negative [long] gives the number back. *)
Lemma read_plain_field (size : Z) :
  0 <= size < 2 ^ 63 -> parse_decimal (pad_left 7 (dec size)) = size.
Proof.
  intros Hs. unfold parse_decimal, pad_left.
  rewrite skip_spaces_app. unfold dec.
  destruct (size <? 0) eqn:E; [lia | ].
  rewrite skip_dec_digits by lia.
  destruct (parse_dec_digits 20 size "" 0) as (k & Hk & _).
  { split; [lia | ]. apply Z.lt_trans with (2 ^ 63); [lia | reflexivity]. }
  rewrite Hk. simpl. lia.
Qed.

(** C9: with human-readable sizes off, reading back the digits printed by
    [fmt_size] for a non-negative byte count gives the byte count. *)
Theorem fmt_size_roundtrip (g : arg_t) (size : Z) :
  human g = 0 -> 0 <= size < 2 ^ 63 ->
  parse_decimal (fmt_size g size) = size.
Proof.
  intros Hh Hs. unfold fmt_size. rewrite Hh. simpl Z.eqb. cbv iota.
  apply read_plain_field, Hs.
Qed.

Lemma fmt_size_roundtrip_witness :
  human g_args0 = 0 /\ 0 <= 123456 < 2 ^ 63
  /\ parse_decimal (fmt_size g_args0 123456) = 123456.
Proof.
  split; [reflexivity | ]. split; [lia | ].
  apply (fmt_size_roundtrip g_args0 123456); [reflexivity | lia].
Defined.

Lemma to_double_exact (n : Z) : 0 <= n < 2 ^ 53 -> to_double n = n.
Proof.
  intros H. unfold to_double.
  assert (Z.log2 n < 53).
  { destruct (Z.eq_dec n 0) as [-> | Hz]; [simpl; lia | ].
    apply Z.log2_lt_pow2; lia. }
  destruct (Z.log2 n - 52 <=? 0) eqn:E; [reflexivity | lia].
Qed.

Lemma tenths_nearest (d k : Z) :
  0 <= d -> 0 < k -> 2 * Z.abs (10 * d - tenths d k * 2 ^ k) <= 2 ^ k.
Proof.
  intros Hd Hk. unfold tenths.
  assert (Hp : 0 < 2 ^ k) by (apply Z.pow_pos_nonneg; lia).
  assert (Hh : 2 ^ k = 2 * 2 ^ (k - 1)).
  { rewrite <- Z.pow_succ_r by lia. f_equal. lia. }
  pose proof (Z.div_mod (d * 10) (2 ^ k) ltac:(lia)) as Hdm.
  pose proof (Z.mod_pos_bound (d * 10) (2 ^ k) Hp) as Hr.
  set (q := d * 10 / 2 ^ k) in *. set (r := (d * 10) mod 2 ^ k) in *.
  set (h := 2 ^ (k - 1)) in *. set (p := 2 ^ k) in *.
  assert (Hup : 10 * d - (q + 1) * p = r - p) by (rewrite Z.mul_comm, Hdm; ring).
  assert (Hdn : 10 * d - q * p = r) by (rewrite Z.mul_comm, Hdm; ring).
  destruct (h <? r) eqn:E1; [rewrite orb_true_l | rewrite orb_false_l].
  - rewrite Hup. lia.
  - destruct ((r =? h) && Z.odd q) eqn:E2.
    + apply andb_true_iff in E2. destruct E2 as [E2 _]. rewrite Hup. lia.
    + rewrite Hdn. lia.
Qed.

Lemma tenths_tie_even (d k : Z) :
  0 <= d -> 0 < k ->
  2 * Z.abs (10 * d - tenths d k * 2 ^ k) = 2 ^ k ->
  Z.even (tenths d k) = true.
Proof.
  intros Hd Hk. unfold tenths.
  assert (Hp : 0 < 2 ^ k) by (apply Z.pow_pos_nonneg; lia).
  assert (Hh : 2 ^ k = 2 * 2 ^ (k - 1)).
  { rewrite <- Z.pow_succ_r by lia. f_equal. lia. }
  pose proof (Z.div_mod (d * 10) (2 ^ k) ltac:(lia)) as Hdm.
  pose proof (Z.mod_pos_bound (d * 10) (2 ^ k) Hp) as Hr.
  set (q := d * 10 / 2 ^ k) in *. set (r := (d * 10) mod 2 ^ k) in *.
  set (h := 2 ^ (k - 1)) in *. set (p := 2 ^ k) in *.
  assert (Hup : 10 * d - (q + 1) * p = r - p) by (rewrite Z.mul_comm, Hdm; ring).
  assert (Hdn : 10 * d - q * p = r) by (rewrite Z.mul_comm, Hdm; ring).
  destruct (h <? r) eqn:E1; [rewrite orb_true_l | rewrite orb_false_l].
  - rewrite Hup. lia.
  - destruct (r =? h) eqn:E2; cbn [andb].
    + destruct (Z.odd q) eqn:E3.
      * intros _. rewrite Z.add_1_r, Z.even_succ. exact E3.
      * intros _. rewrite <- Z.negb_odd, E3. reflexivity.
    + rewrite Hdn. lia.
Qed.

Lemma tenths_range (d k : Z) :
  0 <= d -> 0 < k -> 0 <= tenths d k <= 10 * d + 1.
Proof.
  intros Hd Hk. unfold tenths.
  assert (Hp : 0 < 2 ^ k) by (apply Z.pow_pos_nonneg; lia).
  pose proof (Z.div_pos (d * 10) (2 ^ k) ltac:(lia) ltac:(lia)) as Hq.
  assert (Hq' : d * 10 / 2 ^ k <= d * 10).
  { apply Z.div_le_upper_bound; [lia | nia]. }
  destruct (_ || _); lia.
Qed.

(** The nearest double is within one part in 2^53 of the number. *)
Lemma to_double_near (n : Z) :
  0 <= n -> 2 ^ 53 * Z.abs (to_double n - n) <= n.
Proof.
  intros Hn. unfold to_double.
  destruct (Z.log2 n - 52 <=? 0) eqn:E; [rewrite Z.sub_diag; simpl; lia | ].
  apply Z.leb_gt in E.
  assert (Hpos : 0 < n).
  { destruct (Z.eq_dec n 0) as [-> | ]; [simpl in E; lia | lia]. }
  pose proof (Z.log2_spec n Hpos) as [Hlo _].
  set (e := Z.log2 n - 52) in *.
  assert (Hl : Z.log2 n = 53 + (e - 1)) by (unfold e; lia).
  rewrite Hl, Z.pow_add_r in Hlo by lia.
  assert (Hp : 0 < 2 ^ (e - 1)) by (apply Z.pow_pos_nonneg; lia).
  assert (Hh : 2 ^ e = 2 * 2 ^ (e - 1)).
  { rewrite <- Z.pow_succ_r by lia. f_equal. lia. }
  pose proof (Z.div_mod n (2 ^ e) ltac:(lia)) as Hdm.
  pose proof (Z.mod_pos_bound n (2 ^ e) ltac:(lia)) as Hr.
  set (q := n / 2 ^ e) in *. set (r := n mod 2 ^ e) in *.
  set (h := 2 ^ (e - 1)) in *. set (p := 2 ^ e) in *.
  assert (Hbound : Z.abs
            ((if (h <? r) || ((r =? h) && Z.odd q) then q + 1 else q) * p - n)
          <= h).
  { destruct (h <? r) eqn:E1; [rewrite orb_true_l | rewrite orb_false_l].
    - replace ((q + 1) * p - n) with (p - r) by lia. lia.
    - destruct ((r =? h) && Z.odd q) eqn:E2.
      + replace ((q + 1) * p - n) with (p - r) by lia.
        apply andb_true_iff in E2. lia.
      + replace (q * p - n) with (- r) by lia. lia. }
  change (2 ^ 53) with 9007199254740992 in *. nia.
Qed.

Lemma take_digit_char (d : Z) (r : string) (a : Z) :
  0 <= d < 10 ->
  take_digits (String (digit_char d) r) a = take_digits r (a * 10 + d).
Proof.
  intros H. simpl. rewrite (digit_byte d H).
  replace (48 + d - 48) with d by lia.
  destruct (0 <=? d) eqn:E1; [ | lia].
  destruct (d <=? 9) eqn:E2; [ | lia].
  reflexivity.
Qed.

Lemma take_dec_digits (fuel : nat) :
  forall n acc a, 0 <= n < 10 ^ Z.of_nat fuel ->
  exists k, take_digits (dec_digits fuel n acc) a
            = take_digits acc (a * 10 ^ k + n) /\ 0 <= k.
Proof.
  induction fuel as [| f IH]; intros n acc a Hn.
  - exists 0. simpl in *. split; [f_equal; lia | lia].
  - simpl dec_digits.
    assert (Hm : 0 <= n mod 10 < 10) by (apply Z.mod_pos_bound; lia).
    destruct (n <? 10) eqn:E.
    + exists 1. rewrite take_digit_char by exact Hm.
      rewrite Z.mod_small by lia. split; [f_equal; lia | lia].
    + assert (Hq : 0 <= n / 10 < 10 ^ Z.of_nat f).
      { split; [apply Z.div_pos; lia | ].
        apply Z.div_lt_upper_bound; [lia | ].
        rewrite Nat2Z.inj_succ, Z.pow_succ_r in Hn by lia. lia. }
      destruct (IH (n / 10) (String (digit_char (n mod 10)) acc) a Hq)
        as (k & Hk & Hk0).
      exists (k + 1). rewrite Hk, take_digit_char by exact Hm.
      split; [ | lia]. f_equal.
      rewrite Z.pow_add_r by lia. pose proof (Z.div_mod n 10). lia.
Qed.

Lemma dec_digits_app (fuel : nat) :
  forall n acc rest,
  (dec_digits fuel n acc ++ rest)%string = dec_digits fuel n (acc ++ rest).
Proof.
  induction fuel as [| f IH]; intros n acc rest; [reflexivity | ].
  simpl dec_digits. destruct (n <? 10); [reflexivity | ]. apply IH.
Qed.

Lemma dec_one_digit (m : Z) :
  0 <= m < 10 -> dec m = String (digit_char m) "".
Proof.
  intros H. unfold dec. destruct (m <? 0) eqn:E; [lia | ].
  simpl dec_digits. destruct (m <? 10) eqn:E1; [ | lia].
  rewrite Z.mod_small by lia. reflexivity.
Qed.

Lemma string_app_assoc (a b c : string) :
  ((a ++ b) ++ c)%string = (a ++ b ++ c)%string.
Proof. induction a as [| x r IH]; simpl; [ | rewrite IH]; reflexivity. Qed.

(** Reading [%6.1f] followed by a unit letter gives the tenths back. *)
Lemma read_fmt_f1 (d k : Z) (unit : ascii) :
  0 <= d < 2 ^ 64 -> 0 < k ->
  read_scaled (fmt_f1 d k ++ String unit "") = Some (tenths d k, unit).
Proof.
  intros Hd Hk. pose proof (tenths_range d k (proj1 Hd) Hk) as Ht.
  unfold fmt_f1. set (t := tenths d k) in *.
  assert (Hw : 0 <= t / 10 < 10 ^ Z.of_nat 20).
  { split; [apply Z.div_pos; lia | ].
    apply Z.div_lt_upper_bound; [lia | ].
    change (10 ^ Z.of_nat 20) with 100000000000000000000.
    change (2 ^ 64) with 18446744073709551616 in Hd. lia. }
  assert (Hf : 0 <= t mod 10 < 10) by (apply Z.mod_pos_bound; lia).
  unfold read_scaled, pad_left.
  rewrite string_app_assoc, skip_spaces_app, string_app_assoc.
  cbn [append]. rewrite (dec_one_digit _ Hf). cbn [append].
  unfold dec. destruct (t / 10 <? 0) eqn:E; [lia | ].
  rewrite dec_digits_app. cbn [append].
  rewrite skip_dec_digits by lia.
  destruct (take_dec_digits 20 (t / 10)
              (String "." (String (digit_char (t mod 10)) (String unit "")))
              0 Hw) as (j & Hj & _).
  rewrite Hj. cbn [take_digits].
  change (byte_of "." - 48) with (-2). cbn [Z.leb Z.compare andb].
  rewrite (digit_byte _ Hf).
  replace (48 + t mod 10 - 48) with (t mod 10) by lia.
  destruct (0 <=? t mod 10) eqn:E1; [ | lia].
  destruct (t mod 10 <=? 9) eqn:E2; [ | lia].
  cbn [andb]. f_equal. f_equal.
  pose proof (Z.div_mod t 10). lia.
Qed.

Lemma fmt_f1_shows (d k : Z) (unit : ascii) :
  0 <= d < 2 ^ 64 -> 0 < k ->
  shows_scaled (fmt_f1 d k ++ String unit "") d k unit.
Proof.
  intros Hd Hk. exists (tenths d k).
  split; [apply read_fmt_f1; assumption | ].
  split; [apply tenths_nearest; lia | apply tenths_tie_even; lia].
Qed.

Lemma to_double_range (n : Z) :
  0 <= n < 2 ^ 63 -> 0 <= to_double n < 2 ^ 64.
Proof.
  intros H. pose proof (to_double_near n (proj1 H)) as Hn.
  change (2 ^ 53) with 9007199254740992 in Hn.
  change (2 ^ 63) with 9223372036854775808 in H.
  change (2 ^ 64) with 18446744073709551616. lia.
Qed.

Lemma fmt_size_units (g : arg_t) (size : Z) :
  human g <> 0 ->
  fmt_size g size =
    if 2 ^ 30 <=? size then (fmt_f1 (to_double size) 30 ++ "G")%string
    else if 2 ^ 20 <=? size then (fmt_f1 (to_double size) 20 ++ "M")%string
    else if 2 ^ 10 <=? size then (fmt_f1 (to_double size) 10 ++ "K")%string
    else fmt_size (set_human g 0) size.
Proof.
  intros H. unfold fmt_size. simpl human.
  destruct (human g =? 0) eqn:E; [lia | reflexivity].
Qed.

(** C4: with human-readable sizes on, a size is shown scaled to the largest
    binary unit it reaches, with one decimal place and the unit letter: what
    a reader finds in the field is the multiple of one tenth nearest to the
    size over 2^30 with G from 2^30 on, over 2^20 with M from 2^20 on, over
    2^10 with K from 2^10 on (the even tenth when two are equally near; the
    size is the byte count itself up to 2^53 and its nearest double, at most
    one part in 2^53 off, beyond); every threshold is compared with >=.
    Below 1024 the field is the plain byte count of the non-human path.  At
    the boundaries: 1024 gives 1.0K, 1023 gives 1023, 1048576 gives 1.0M,
    1073741824 gives 1.0G, each right-justified in the field. *)
Theorem fmt_size_human (g : arg_t) (size : Z) :
  human g <> 0 -> 0 <= size < 2 ^ 63 ->
  (size < 2 ^ 10 ->
   fmt_size g size = fmt_size (set_human g 0) size
   /\ parse_decimal (fmt_size g size) = size)
  /\ (2 ^ 10 <= size < 2 ^ 20 ->
      shows_scaled (fmt_size g size) size 10 "K")
  /\ (2 ^ 20 <= size < 2 ^ 30 ->
      shows_scaled (fmt_size g size) size 20 "M")
  /\ (2 ^ 30 <= size < 2 ^ 53 ->
      shows_scaled (fmt_size g size) size 30 "G")
  /\ (2 ^ 53 <= size ->
      shows_scaled (fmt_size g size) (to_double size) 30 "G"
      /\ 2 ^ 53 * Z.abs (to_double size - size) <= size)
  /\ fmt_size g 1023 = "   1023"
  /\ fmt_size g 1024 = "   1.0K"
  /\ fmt_size g 1048575 = "1024.0K"
  /\ fmt_size g 1048576 = "   1.0M"
  /\ fmt_size g 1073741823 = "1024.0M"
  /\ fmt_size g 1073741824 = "   1.0G".
Proof.
  intros Hh Hs.
  pose proof (to_double_range size Hs) as Hd.
  pose proof (fmt_size_units g size Hh) as Hu.
  pose proof (fmt_size_units g) as Hat.
  split; [ | split; [ | split; [ | split; [ | split]]]].
  - intros H.
    destruct (2 ^ 30 <=? size) eqn:E1; [lia | ].
    destruct (2 ^ 20 <=? size) eqn:E2; [lia | ].
    destruct (2 ^ 10 <=? size) eqn:E3; [lia | ].
    rewrite Hu. split; [reflexivity | ].
    exact (read_plain_field size Hs).
  - intros H.
    destruct (2 ^ 30 <=? size) eqn:E1; [lia | ].
    destruct (2 ^ 20 <=? size) eqn:E2; [lia | ].
    destruct (2 ^ 10 <=? size) eqn:E3; [ | lia].
    rewrite Hu.
    pose proof (fmt_f1_shows (to_double size) 10 "K" Hd ltac:(lia)) as HU.
    rewrite (to_double_exact size) in HU |- * by lia. exact HU.
  - intros H.
    destruct (2 ^ 30 <=? size) eqn:E1; [lia | ].
    destruct (2 ^ 20 <=? size) eqn:E2; [ | lia].
    rewrite Hu.
    pose proof (fmt_f1_shows (to_double size) 20 "M" Hd ltac:(lia)) as HU.
    rewrite (to_double_exact size) in HU |- * by lia. exact HU.
  - intros H.
    destruct (2 ^ 30 <=? size) eqn:E1; [ | lia].
    rewrite Hu.
    pose proof (fmt_f1_shows (to_double size) 30 "G" Hd ltac:(lia)) as HU.
    rewrite (to_double_exact size) in HU |- * by lia. exact HU.
  - intros H. split; [ | apply to_double_near; lia].
    destruct (2 ^ 30 <=? size) eqn:E1; [ | lia].
    rewrite Hu. apply fmt_f1_shows; [exact Hd | lia].
  - rewrite !Hat by exact Hh. repeat split.
Qed.

Lemma fmt_size_human_witness :
  human (set_human g_args0 1) <> 0
  /\ 0 <= 5000000 < 2 ^ 63
  /\ 2 ^ 20 <= 5000000 < 2 ^ 30
  /\ fmt_size (set_human g_args0 1) 5000000 = "   4.8M"
  /\ read_scaled (fmt_size (set_human g_args0 1) 5000000)
     = Some (48, "M"%char)
  /\ shows_scaled (fmt_size (set_human g_args0 1) 5000000) 5000000 20 "M".
Proof.
  assert (H : human (set_human g_args0 1) <> 0) by discriminate.
  assert (R : 0 <= 5000000 < 2 ^ 63) by lia.
  assert (U : 2 ^ 20 <= 5000000 < 2 ^ 30) by lia.
  pose proof (fmt_size_human (set_human g_args0 1) 5000000 H R)
    as (_ & _ & HM & _).
  split; [exact H | ]. split; [exact R | ]. split; [exact U | ].
  split; [reflexivity | ]. split; [reflexivity | ]. exact (HM U).
Defined.

(** ** Reasoning about runs *)

Section RunFacts.
Context {W : Type} (K : kernel W).

Lemma bind_ext {A B} (m : M W A) (k1 k2 : A -> M W B) (s : state W) :
  (forall a s', k1 a s' = k2 a s') -> bind m k1 s = bind m k2 s.
Proof.
  intros H. unfold bind. destruct (m s) as [[[a | n] s1] l1];
    [rewrite H | ]; reflexivity.
Qed.

Lemma bind_ret_run {A B} (m : M W A) (k : A -> M W B) s a s1 l1 :
  m s = (Ret a, s1, l1) ->
  bind m k s = (let '(o, s2, l2) := k a s1 in (o, s2, l1 ++ l2)).
Proof. intros H. unfold bind. rewrite H. reflexivity. Qed.

Lemma bind_exit_run {A B} (m : M W A) (k : A -> M W B) s n s1 l1 :
  m s = (Exit n, s1, l1) -> bind m k s = (Exit n, s1, l1).
Proof. intros H. unfold bind. rewrite H. reflexivity. Qed.

Lemma log_all_ret {A} P (a : A) : log_all (W:=W) P (ret a).
Proof. intros s. constructor. Qed.

Lemma log_all_exit {A} P n : log_all (W:=W) P (exit (A:=A) n).
Proof. intros s. constructor. Qed.

Lemma log_all_emit P ev : P ev -> log_all (W:=W) P (emit ev).
Proof. intros H s. repeat constructor. exact H. Qed.

Lemma log_all_bind {A B} P (m : M W A) (k : A -> M W B) :
  log_all P m -> (forall a, log_all P (k a)) -> log_all P (bind m k).
Proof.
  intros Hm Hk s. specialize (Hm s). unfold bind, log_of in *.
  destruct (m s) as [[[a | n] s1] l1]; simpl in *; [ | exact Hm].
  specialize (Hk a s1). destruct (k a s1) as [[o s2] l2]; simpl in *.
  apply Forall_app. split; assumption.
Qed.

Lemma log_all_query {A} P (r : W -> Z + A) (ev : bool -> event) :
  P (ev true) -> P (ev false) ->
  log_all P (fun s => query (r (world s)) ev s).
Proof.
  intros Ht Hf s. unfold query, log_of.
  destruct (r (world s)); repeat constructor; assumption.
Qed.

Lemma log_all_chdir P ev path :
  P (ev path true) -> P (ev path false) -> log_all P (sys_chdir K ev path).
Proof.
  intros Ht Hf s. unfold sys_chdir, log_of.
  destruct (k_chdir K (world s) path); repeat constructor; assumption.
Qed.

Lemma log_all_malloc P size :
  P (EvMalloc size true) -> P (EvMalloc size false) ->
  log_all P (sys_malloc K size).
Proof.
  intros Ht Hf s. unfold sys_malloc, log_of.
  destruct (k_malloc K (world s) size) as [[|] w'];
    repeat constructor; assumption.
Qed.

Lemma log_all_strdup P text :
  P (EvStrdup text true) -> P (EvStrdup text false) ->
  log_all P (sys_strdup K text).
Proof.
  intros Ht Hf s. unfold sys_strdup, log_of.
  destruct (k_malloc K (world s) (Z.of_nat (String.length text) + 1))
    as [[|] w']; repeat constructor; assumption.
Qed.

Lemma log_all_stat P path :
  P (EvStat path true) -> P (EvStat path false) ->
  log_all P (sys_stat K path).
Proof. apply (log_all_query P (fun w => k_stat K w path)). Qed.

Lemma log_all_lstat P path :
  P (EvLstat path true) -> P (EvLstat path false) ->
  log_all P (sys_lstat K path).
Proof. apply (log_all_query P (fun w => k_lstat K w path)). Qed.

Lemma log_all_readlink P path size :
  P (EvReadlink path true) -> P (EvReadlink path false) ->
  log_all P (sys_readlink K path size).
Proof. apply (log_all_query P (fun w => k_readlink K w path size)). Qed.

Lemma log_all_readdir P path :
  P (EvOpendir path true) -> P (EvOpendir path false) ->
  log_all P (sys_readdir K path).
Proof. apply (log_all_query P (fun w => k_readdir K w path)). Qed.

Lemma log_all_getcwd P size :
  P (EvGetcwd true) -> P (EvGetcwd false) -> log_all P (sys_getcwd K size).
Proof. apply (log_all_query P (fun w => k_getcwd K w size)). Qed.

Lemma log_all_err_sys P msg :
  (forall e, P (EvStderr (err_text K msg e))) -> log_all P (err_sys K msg).
Proof. intros H s. repeat constructor. apply H. Qed.

Lemma log_all_getpwuid P uid : log_all P (getpwuid K uid).
Proof. intros s. constructor. Qed.

Lemma log_all_getgrgid P gid : log_all P (getgrgid K gid).
Proof. intros s. constructor. Qed.

Lemma log_all_strftime P t : log_all P (strftime_local K t).
Proof. intros s. constructor. Qed.

Lemma log_all_stdout P text :
  P (EvStdout text) -> log_all P (fprintf_stdout (W:=W) text).
Proof. apply log_all_emit. Qed.
End RunFacts.

(** ** Classification *)

Section ClassifyFacts.
Context {W : Type} (K : kernel W) (g : arg_t).

Lemma isdir_run (p : string) (s : state W) :
  exists s',
    isdir K p s = (Ret (is_dir_in K (world s) p), s',
                   [EvStat p (succeeds (k_stat K (world s) p))])
    /\ world s' = world s.
Proof.
  unfold isdir, bind, sys_stat, query, ret, is_dir_in, succeeds.
  destruct (k_stat K (world s) p) as [e | buf]; simpl;
    eexists; split; reflexivity.
Qed.

Lemma classify_loop_run (rest : list string) :
  forall dirs plain s,
  exists s',
    classify_loop K rest dirs plain s =
      (Ret (dirs ++ filter (is_dir_in K (world s)) rest,
            plain ++ filter (fun p => negb (is_dir_in K (world s) p)) rest),
       s',
       map (fun p => EvStat p (succeeds (k_stat K (world s) p))) rest)
    /\ world s' = world s.
Proof.
  induction rest as [| f r IH]; intros dirs plain s; simpl.
  - exists s. unfold ret. rewrite !app_nil_r. split; reflexivity.
  - destruct (isdir_run f s) as (s1 & H1 & W1).
    rewrite (bind_ret_run _ _ _ _ _ _ H1).
    destruct (is_dir_in K (world s) f) eqn:E; simpl.
    + destruct (IH (dirs ++ [f]) plain s1) as (s2 & H2 & W2).
      rewrite H2, W1, <- !app_assoc. simpl.
      exists s2. split; [reflexivity | congruence].
    + destruct (IH dirs (plain ++ [f]) s1) as (s2 & H2 & W2).
      rewrite H2, W1, <- !app_assoc. simpl.
      exists s2. split; [reflexivity | congruence].
Qed.

Lemma classify_run (s : state W) :
  exists s',
    classify K g s =
      (Ret (filter (is_dir_in K (world s)) (files g),
            filter (fun p => negb (is_dir_in K (world s) p)) (files g)),
       s',
       map (fun p => EvStat p (succeeds (k_stat K (world s) p))) (files g))
    /\ world s' = world s.
Proof. exact (classify_loop_run (files g) [] [] s). Qed.

Lemma filter_split_perm {A} (f : A -> bool) (l : list A) :
  Permutation (filter f l ++ filter (fun x => negb (f x)) l) l.
Proof.
  induction l as [| a r IH]; simpl; [constructor | ].
  destruct (f a); simpl.
  - constructor. exact IH.
  - etransitivity; [symmetry; apply Permutation_middle | ].
    constructor. exact IH.
Qed.
End ClassifyFacts.

(** C5: [classify] splits the operands into the directories and the rest:
    both parts keep the order of the command line, every operand is in
    exactly one of them, the two counts add up to the number of operands,
    an operand whose [stat] fails is in the second part, and the whole
    classification returns normally, writing nothing to stderr. *)
Theorem classify_partition {W : Type} (K : kernel W) (g : arg_t)
  (s : state W) :
  let isd := is_dir_in K (world s) in
  let dirs := filter isd (files g) in
  let plain := filter (fun p => negb (isd p)) (files g) in
  exists s',
    classify K g s =
      (Ret (dirs, plain), s',
       map (fun p => EvStat p (succeeds (k_stat K (world s) p))) (files g))
    /\ world s' = world s
    /\ (List.length dirs + List.length plain = List.length (files g))%nat
    /\ Permutation (dirs ++ plain) (files g)
    /\ (forall t, In t (files g) ->
        (In t dirs /\ ~ In t plain) \/ (In t plain /\ ~ In t dirs))
    /\ (forall t, In t (files g) ->
        succeeds (k_stat K (world s) t) = false -> In t plain)
    /\ (forall text,
        ~ In (EvStderr text) (log_of (classify K g s))).
Proof.
  intros isd dirs plain.
  destruct (classify_run K g s) as (s' & Hrun & Hw).
  fold isd in Hrun. fold dirs plain in Hrun.
  exists s'. rewrite Hrun.
  pose proof (filter_split_perm isd (files g)) as HP. fold dirs plain in HP.
  split; [reflexivity | ]. split; [exact Hw | ].
  split; [ rewrite <- length_app; apply Permutation_length, HP | ].
  split; [exact HP | ].
  split; [ | split].
  - intros t Ht. subst dirs plain. rewrite !filter_In.
    destruct (isd t) eqn:E; [left | right]; simpl.
    + split; [auto | ]. intros [_ F]. discriminate.
    + split; [auto | ]. intros [_ F]. discriminate.
  - intros t Ht Hf. subst plain. apply filter_In. split; [exact Ht | ].
    subst isd. unfold is_dir_in. unfold succeeds in Hf.
    destruct (k_stat K (world s) t); [reflexivity | discriminate].
  - intros text Hin. unfold log_of in Hin. simpl in Hin.
    apply in_map_iff in Hin. destruct Hin as (p & F & _). discriminate.
Qed.

(** ** The per-entry loop *)

Section EntryFacts.
Context {W : Type} (K : kernel W) (g : arg_t).

Lemma get_stat_run (p : string) (s : state W) :
  get_stat K g p s
  = query (lookup_result K g (world s) p) (lookup_event g p) s.
Proof.
  unfold get_stat, lookup_result, lookup_event, sys_stat, sys_lstat.
  destruct (negb (follow g =? 0)); reflexivity.
Qed.

Lemma no_memory_not_access (e : Z) :
  access_report (EvStderr (err_text K "ls: no memory" e)) = false.
Proof. reflexivity. Qed.

Lemma read_link_not_access (name : string) (e : Z) :
  access_report
    (EvStderr (err_text K ("ls: can not read link " ++ name) e)) = false.
Proof. reflexivity. Qed.

Lemma prefix_nil (x : string) : String.prefix "" x = true.
Proof. destruct x; reflexivity. Qed.

Lemma substring_prefix (p x : string) (n : nat) :
  (String.length p <= n)%nat ->
  String.prefix p (substring 0 n (p ++ x)) = true.
Proof.
  revert n. induction p as [| c r IH]; intros n Hn; [apply prefix_nil | ].
  destruct n as [| k]; simpl in *; [lia | ].
  destruct (ascii_dec c c) as [_ | F]; [ | contradiction].
  apply IH. lia.
Qed.

Lemma prefix_app (p x y : string) :
  String.prefix p x = true -> String.prefix p (x ++ y) = true.
Proof.
  revert x. induction p as [| c r IH]; intros x; [intros _; apply prefix_nil | ].
  destruct x as [| d x']; simpl; [discriminate | ].
  destruct (ascii_dec c d); [apply IH | discriminate].
Qed.

Lemma access_is_access (file : string) (e : Z) :
  access_report
    (EvStderr (err_text K ("ls: can not access " ++ file) e)) = true.
Proof.
  unfold access_report, err_text. apply prefix_app.
  apply substring_prefix. unfold MAXLINE. simpl. lia.
Qed.
End EntryFacts.

(** One step of a proof that every logged event satisfies a property: peel
    a bind, or close a primitive. *)
Ltac log_all_step :=
  first
    [ apply log_all_ret
    | apply log_all_exit
    | apply log_all_stdout
    | apply log_all_getpwuid
    | apply log_all_getgrgid
    | apply log_all_strftime
    | apply log_all_err_sys; intros ?
    | apply log_all_stat
    | apply log_all_lstat
    | apply log_all_readlink
    | apply log_all_readdir
    | apply log_all_getcwd
    | apply log_all_malloc
    | apply log_all_strdup
    | apply log_all_chdir
    | apply log_all_bind; [ | intros ? ] ].

Section PrintFacts.
Context {W : Type} (K : kernel W) (g : arg_t).

Lemma fmt_name_log (buf : stat_t) (name : string) :
  log_all line_event (fmt_name K buf name).
Proof.
  unfold fmt_name.
  destruct (S_ISLNK (st_mode buf)); [ | log_all_step; exact I].
  log_all_step; [log_all_step; exact I | ].
  destruct a; simpl.
  - log_all_step; [log_all_step; exact I | ].
    destruct a; repeat log_all_step. apply read_link_not_access.
  - repeat log_all_step. apply no_memory_not_access.
Qed.

Lemma pr_line_log (buf : stat_t) (name : string) :
  log_all line_event (pr_line K g buf name).
Proof.
  unfold pr_line, fmt_owner, fmt_group, fmt_time.
  repeat first [ apply fmt_name_log | log_all_step ]; exact I.
Qed.
End PrintFacts.

Section LoopFacts.
Context {W : Type} (K : kernel W) (g : arg_t).

Lemma do_file_skipped (file : string) (s : state W) :
  skip g file <> 0 -> do_file K g file s = (Ret tt, s, []).
Proof.
  intros H. unfold do_file.
  destruct (skip g file =? 0) eqn:E; [lia | reflexivity].
Qed.

Lemma do_file_failed (file : string) (s : state W) (e : Z) :
  skip g file = 0 -> lookup_result K g (world s) file = inl e ->
  do_file K g file s =
    (Ret tt, mk_state (world s) e,
     [lookup_event g file false;
      EvStderr (err_text K ("ls: can not access " ++ file) e)]).
Proof.
  intros Hs Hl. unfold do_file. rewrite Hs.
  change (negb (0 =? 0)) with false. cbv iota.
  unfold bind. rewrite get_stat_run, Hl. reflexivity.
Qed.

Lemma do_file_found (file : string) (s : state W) (buf : stat_t) :
  skip g file = 0 -> lookup_result K g (world s) file = inr buf ->
  do_file K g file s =
    (let '(o, s', l) := pr_line K g buf file s in
     (o, s', lookup_event g file true :: l)).
Proof.
  intros Hs Hl. unfold do_file. rewrite Hs.
  change (negb (0 =? 0)) with false. cbv iota.
  unfold bind at 1. rewrite get_stat_run, Hl. simpl.
  destruct (pr_line K g buf file s) as [[o s'] l]. reflexivity.
Qed.

Lemma do_files_skipped (file : string) (rest : list string) (s : state W) :
  skip g file <> 0 -> do_files K g (file :: rest) s = do_files K g rest s.
Proof.
  intros H. simpl. unfold bind. rewrite (do_file_skipped file s H).
  destruct (do_files K g rest s) as [[o s2] l2]. reflexivity.
Qed.

Lemma do_files_filter (l : list string) :
  forall s, do_files K g l s = do_files K g (filter (unskipped g) l) s.
Proof.
  induction l as [| file rest IH]; intros s; [reflexivity | ].
  simpl filter. unfold unskipped at 1.
  destruct (skip g file =? 0) eqn:E.
  - simpl. apply bind_ext. intros _ s'. apply IH.
  - rewrite do_files_skipped by lia. apply IH.
Qed.

Lemma access_report_lookup (file : string) (ok : bool) :
  access_report (lookup_event g file ok) = false.
Proof. unfold lookup_event. destruct (negb (follow g =? 0)); reflexivity. Qed.

Lemma line_event_no_access (l : list event) :
  Forall line_event l -> existsb access_report l = false.
Proof.
  induction 1 as [| ev r Hev _ IH]; [reflexivity | ].
  simpl. rewrite IH, orb_false_r.
  destruct ev; simpl in *; try reflexivity; try contradiction. exact Hev.
Qed.
End LoopFacts.

(** C10: in the per-entry loop the filter is consulted first.  A suppressed
    entry leaves no trace at all: no lookup, nothing on stdout or stderr,
    the state untouched, so that the loop runs as if the entry were not in
    the list.  An entry that is kept is looked up first; the access error is
    written exactly when that lookup fails, and the line is printed
    otherwise.  Hence an access error appears for an entry if and only if
    the entry is kept and its lookup fails. *)
Theorem skip_precedes_lookup {W : Type} (K : kernel W) (g : arg_t)
  (file : string) (rest : list string) (s : state W) :
  (skip g file <> 0 ->
   do_file K g file s = (Ret tt, s, [])
   /\ do_files K g (file :: rest) s = do_files K g rest s)
  /\ (skip g file = 0 ->
      match lookup_result K g (world s) file with
      | inl e =>
          do_file K g file s =
            (Ret tt, mk_state (world s) e,
             [lookup_event g file false;
              EvStderr (err_text K ("ls: can not access " ++ file) e)])
      | inr buf =>
          do_file K g file s =
            (let '(o, s', l) := pr_line K g buf file s in
             (o, s', lookup_event g file true :: l))
      end)
  /\ (existsb access_report (log_of (do_file K g file s)) = true <->
      skip g file = 0
      /\ succeeds (lookup_result K g (world s) file) = false)
  /\ do_files K g (file :: rest) s
     = do_files K g (filter (unskipped g) (file :: rest)) s.
Proof.
  split; [ | split; [ | split]].
  - intros H. split; [apply do_file_skipped | apply do_files_skipped]; exact H.
  - intros H. destruct (lookup_result K g (world s) file) as [e | buf] eqn:E.
    + apply do_file_failed; assumption.
    + apply do_file_found; assumption.
  - destruct (Z.eq_dec (skip g file) 0) as [Hs | Hs].
    + destruct (lookup_result K g (world s) file) as [e | buf] eqn:E.
      * rewrite (do_file_failed K g file s e Hs E). unfold log_of.
        cbn [snd existsb].
        rewrite access_report_lookup, access_is_access.
        split; auto.
      * rewrite (do_file_found K g file s buf Hs E).
        pose proof (pr_line_log K g buf file s) as HL. unfold log_of in *.
        destruct (pr_line K g buf file s) as [[o s'] l].
        cbn [snd existsb] in *.
        rewrite access_report_lookup, (line_event_no_access l HL).
        split; [discriminate | intros [_ F]; discriminate].
    + rewrite (do_file_skipped K g file s Hs). unfold log_of. simpl.
      split; [discriminate | intros [F _]; contradiction].
  - apply do_files_filter.
Qed.

(** ** Explicit operands and the filter *)

(** How [main] comes to filter operands: the operands that are not
    directories are handed to [do_files], the loop written for directory
    entries, which calls [skip] on every name.  [main] runs exactly as if
    the suppressed names had been removed from the sorted list of plain
    operands: with neither -a nor -A an operand whose name begins with "."
    is dropped without a lookup. *)
Theorem explicit_operands_filtered {W : Type} (K : kernel W) (g : arg_t)
  (s : state W) :
  main_list K g s =
    (d <- sys_malloc K (array_bytes (fc g)) ;;
     f <- sys_malloc K (array_bytes (fc g)) ;;
     if negb d || negb f then ret 1
     else
       c <- classify K g ;;
       do_files K g (filter (unskipped g) (sort (snd c))) ;;
       do_dirs K g (sort (fst c)) ;;
       ret 0) s
  /\ (all g <> 0 -> forall t, unskipped g t = true)
  /\ (forall t, peek t <> 46 -> unskipped g t = true)
  /\ (all g = 0 -> almost g = 0 ->
      forall t s', peek t = 46 ->
      unskipped g t = false /\ do_file K g t s' = (Ret tt, s', [])).
Proof.
  split; [ | split; [ | split]].
  - unfold main_list. apply bind_ext. intros d s1. apply bind_ext.
    intros f s2. destruct (negb d || negb f); [reflexivity | ].
    apply bind_ext. intros c s3. unfold bind at 1 3.
    rewrite <- do_files_filter. reflexivity.
  - intros Ha t. unfold unskipped. rewrite skip_all by exact Ha. reflexivity.
  - intros t Ht. unfold unskipped. rewrite skip_no_dot by exact Ht.
    reflexivity.
  - intros Ha Hb t s' Ht.
    assert (Hs : skip g t = 1).
    { rewrite (skip_default g t Ha Hb), Ht. reflexivity. }
    split; [unfold unskipped; rewrite Hs; reflexivity | ].
    apply do_file_skipped. lia.
Qed.

Lemma explicit_operands_filtered_witness :
  all (mk_args 0 0 0 0 [".profile"] 1) = 0
  /\ peek ".profile" = 46
  /\ do_file Toy.K (mk_args 0 0 0 0 [".profile"] 1) ".profile"
       (Toy.start Toy.home) = (Ret tt, Toy.start Toy.home, []).
Proof.
  destruct (explicit_operands_filtered Toy.K (mk_args 0 0 0 0 [".profile"] 1)
              (Toy.start Toy.home)) as (_ & _ & _ & H).
  split; [reflexivity | ]. split; [reflexivity | ].
  apply (H eq_refl eq_refl ".profile" (Toy.start Toy.home) eq_refl).
Defined.

(** C1: an operand named on the command line is to be looked up and printed
    whatever its name; the program does not do so.  [ls .profile], in a
    directory where [.profile] is a regular file, runs without any failure,
    yet after the [stat] that classifies the operand nothing is looked up
    and nothing is printed: [main] reuses [do_files], whose loop filters
    every name. *)
Lemma explicit_dotfile_dropped :
  (parse_args ["ls"; ".profile"] g_args0
   = (0, mk_args 0 0 0 0 [".profile"] 1)
   /\ is_dir_in Toy.K Toy.home ".profile" = false
   /\ succeeds (Toy.lstat Toy.home ".profile") = true
   /\ main Toy.K ["ls"; ".profile"] (Toy.start Toy.home)
      = (Ret 0, Toy.start Toy.home,
         [EvMalloc 8 true; EvMalloc 8 true; EvStat ".profile" true;
          EvGetcwd true]))
  /\ ~ (forall (W : Type) (K : kernel W) (argv : list string) (g : arg_t)
               (s : state W) (t : string),
           parse_args argv g_args0 = (0, g) ->
           In t (files g) ->
           is_dir_in K (world s) t = false ->
           (forall ev, In ev (log_of (main K argv s)) ->
                       fatal ev = false /\ per_entry_failure ev = false) ->
           (exists ok, In (lookup_event g t ok) (log_of (main K argv s)))
           /\ (exists text, In (EvStdout text) (log_of (main K argv s))
                            /\ String.prefix t text = true)).
Proof.
  split; [repeat split | ].
  intros H.
  destruct (H Toy.world Toy.K ["ls"; ".profile"]
              (mk_args 0 0 0 0 [".profile"] 1)
              (Toy.start Toy.home) ".profile" eq_refl
              (or_introl eq_refl) eq_refl) as [(ok & Hin) _].
  - intros ev Hev. vm_compute in Hev.
    repeat (destruct Hev as [<- | Hev]; [split; reflexivity | ]).
    contradiction.
  - vm_compute in Hin.
    repeat (destruct Hin as [Hin | Hin]; [discriminate | ]).
    contradiction.
Qed.

(** The other half of [main] does not filter its operands: a directory
    named on the command line is listed even when its name begins with
    ".". *)
Example dot_directory_operand_listed :
  parse_args ["ls"; ".hid"] g_args0 = (0, mk_args 0 0 0 0 [".hid"] 1)
  /\ skip (mk_args 0 0 0 0 [".hid"] 1) ".hid" = 1
  /\ exit_status (main Toy.K ["ls"; ".hid"] (Toy.start Toy.den)) = 0
  /\ stdout_text (log_of (main Toy.K ["ls"; ".hid"] (Toy.start Toy.den)))
     = ("11     1  -rw-r--r-- root     root           7 1970-01-01 00:00 x"
        ++ String "010" "")%string.
Proof. repeat split. Qed.

(** ** Which lookup is made where *)

Section LookupFacts.
Context {W : Type} (K : kernel W) (g : arg_t).

Lemma log_all_impl {A} (P Q : event -> Prop) (m : M W A) :
  (forall ev, P ev -> Q ev) -> log_all P m -> log_all Q m.
Proof. intros H Hm s. eapply Forall_impl; [exact H | apply Hm]. Qed.

Lemma lookup_event_by_flag (p : string) (ok : bool) :
  lookup_by_flag g (lookup_event g p ok).
Proof.
  unfold lookup_event. destruct (follow g =? 0) eqn:E; simpl; lia.
Qed.

Lemma get_stat_log (p : string) (s : state W) :
  log_of (get_stat K g p s)
  = [lookup_event g p (succeeds (lookup_result K g (world s) p))].
Proof.
  rewrite get_stat_run. unfold query, log_of.
  destruct (lookup_result K g (world s) p); reflexivity.
Qed.

Lemma get_stat_by_flag (p : string) :
  log_all (lookup_by_flag g) (get_stat K g p).
Proof.
  intros s. rewrite get_stat_log. repeat constructor.
  apply lookup_event_by_flag.
Qed.

Lemma line_event_by_flag (ev : event) :
  line_event ev -> lookup_by_flag g ev.
Proof. destruct ev; simpl; auto; contradiction. Qed.

Lemma do_file_by_flag (file : string) :
  log_all (lookup_by_flag g) (do_file K g file).
Proof.
  unfold do_file. destruct (negb (skip g file =? 0)); [log_all_step | ].
  apply log_all_bind; [apply get_stat_by_flag | ].
  intros [buf | ].
  - apply (log_all_impl line_event); [apply line_event_by_flag | ].
    apply pr_line_log.
  - log_all_step. exact I.
Qed.

Lemma do_files_by_flag (l : list string) :
  log_all (lookup_by_flag g) (do_files K g l).
Proof.
  induction l as [| f r IH]; simpl; [log_all_step | ].
  apply log_all_bind; [apply do_file_by_flag | intros _; exact IH].
Qed.

Lemma listdir_by_flag (dir : string) :
  log_all (lookup_by_flag g) (listdir K dir).
Proof.
  unfold listdir. log_all_step; [log_all_step; exact I | ].
  destruct a; simpl.
  - log_all_step; [log_all_step; exact I | ].
    destruct a; repeat log_all_step. exact I.
  - repeat log_all_step. exact I.
Qed.

Lemma do_dir_by_flag (dc : Z) (cwd dir : string) :
  log_all (lookup_by_flag g) (do_dir K g dc cwd dir).
Proof.
  unfold do_dir. apply log_all_bind; [apply listdir_by_flag | ].
  intros [names | ]; [ | log_all_step].
  log_all_step; [log_all_step; exact I | ].
  destruct a; simpl; [ | log_all_step; exact I].
  log_all_step.
  { destruct (_ && _); log_all_step. exact I. }
  apply log_all_bind; [apply do_files_by_flag | intros _].
  log_all_step; [log_all_step; exact I | ].
  destruct a0; simpl; repeat log_all_step. exact I.
Qed.

Lemma do_dirs_loop_by_flag (dc : Z) (cwd : string) (dirs : list string) :
  log_all (lookup_by_flag g) (do_dirs_loop K g dc cwd dirs).
Proof.
  induction dirs as [| d r IH]; simpl; [log_all_step | ].
  apply log_all_bind; [apply do_dir_by_flag | intros _; exact IH].
Qed.

Lemma do_dirs_by_flag (dirs : list string) :
  log_all (lookup_by_flag g) (do_dirs K g dirs).
Proof.
  unfold do_dirs. log_all_step; [log_all_step; exact I | ].
  destruct a; [apply do_dirs_loop_by_flag | ].
  repeat log_all_step. exact I.
Qed.
End LookupFacts.

(** C2, as the program has it: the lookup behind every printed line, made by
    [get_stat] for plain operands and for directory entries alike, is [stat]
    when [follow] is set and [lstat] otherwise; the test that classifies an
    operand, [isdir], is always a [stat], whatever the flag.  In a whole run
    every lookup either obeys the flag or is the [stat] that classifies an
    operand. *)
Theorem lookups_by_flag_but_isdir {W : Type} (K : kernel W) (g : arg_t) :
  (forall p s,
      log_of (get_stat K g p s)
      = [lookup_event g p (succeeds (lookup_result K g (world s) p))]
      /\ lookup_by_flag g
           (lookup_event g p (succeeds (lookup_result K g (world s) p))))
  /\ (forall p s,
      log_of (isdir K p s) = [EvStat p (succeeds (k_stat K (world s) p))])
  /\ (forall l, log_all (lookup_by_flag g) (do_files K g l))
  /\ (forall l, log_all (lookup_by_flag g) (do_dirs K g l))
  /\ (forall s,
      Forall (fun ev => lookup_by_flag g ev
                        \/ exists p ok, ev = EvStat p ok /\ In p (files g))
             (log_of (main_list K g s))).
Proof.
  split; [ | split; [ | split; [ | split]]].
  - intros p s. split; [apply get_stat_log | apply lookup_event_by_flag].
  - intros p s. destruct (isdir_run K p s) as (s' & H & _). rewrite H.
    reflexivity.
  - apply do_files_by_flag.
  - apply do_dirs_by_flag.
  - set (Q := fun ev => lookup_by_flag g ev
                        \/ exists p ok, ev = EvStat p ok /\ In p (files g)).
    assert (HQ : forall ev, lookup_by_flag g ev -> Q ev) by (intros; left; auto).
    assert (main_ok : log_all Q (main_list K g)).
    { unfold main_list.
      log_all_step; [log_all_step; apply HQ; exact I | ].
      log_all_step; [log_all_step; apply HQ; exact I | ].
      destruct (negb a || negb a0); [log_all_step | ].
      apply log_all_bind.
      - intros s. destruct (classify_run K g s) as (s' & H & _).
        rewrite H. unfold log_of. simpl. apply Forall_forall.
        intros ev Hev. apply in_map_iff in Hev.
        destruct Hev as (p & <- & Hp). right. eauto.
      - intros c. apply log_all_bind;
          [apply (log_all_impl _ _ _ HQ), do_files_by_flag | intros _].
        apply log_all_bind;
          [apply (log_all_impl _ _ _ HQ), do_dirs_by_flag | intros _].
        log_all_step. }
    exact main_ok.
Qed.

(** C2, as stated, fails: in [ls docs], without -L, the operand [docs], a
    symbolic link to a directory, is classified with [stat] and listed as a
    directory. *)
Lemma classification_ignores_flag :
  (parse_args ["ls"; "docs"] g_args0 = (0, mk_args 0 0 0 0 ["docs"] 1)
   /\ log_of (main Toy.K ["ls"; "docs"] (Toy.start Toy.home))
      = [EvMalloc 8 true; EvMalloc 8 true; EvStat "docs" true;
         EvGetcwd true; EvMalloc 256 true; EvOpendir "docs" true;
         EvChdir "docs" true; EvChdirBack "/home" true])
  /\ ~ (forall (W : Type) (K : kernel W) (argv : list string) (g : arg_t)
               (s : state W),
           parse_args argv g_args0 = (0, g) ->
           Forall (lookup_by_flag g) (log_of (main K argv s))).
Proof.
  split; [split; reflexivity | ].
  intros H.
  specialize (H Toy.world Toy.K ["ls"; "docs"] (mk_args 0 0 0 0 ["docs"] 1)
                (Toy.start Toy.home) eq_refl).
  rewrite Forall_forall in H.
  assert (F : lookup_by_flag (mk_args 0 0 0 0 ["docs"] 1)
                (EvStat "docs" true)).
  { apply H. vm_compute. right. right. left. reflexivity. }
  apply F. reflexivity.
Qed.

(** ** Exit status *)

Section ExitFacts.
Context {W : Type} (K : kernel W) (g : arg_t).

Lemma guf_ret {A} (Q : A -> Prop) (a : A) :
  Q a -> gives_up_on_fatal (W:=W) Q (ret a).
Proof. intros H s. simpl. auto. Qed.

Lemma guf_weaken {A} (Q : A -> Prop) (m : M W A) :
  gives_up_on_fatal Q m -> gives_up_on_fatal any m.
Proof.
  intros H s. specialize (H s). destruct (m s) as [[[a | n] s1] l];
    [destruct H; split; [exact I | assumption] | exact H].
Qed.

Lemma guf_bind {A B} (Q : B -> Prop) (m : M W A) (k : A -> M W B) :
  gives_up_on_fatal any m ->
  (forall a, gives_up_on_fatal Q (k a)) ->
  gives_up_on_fatal Q (bind m k).
Proof.
  intros Hm Hk s. specialize (Hm s). unfold bind.
  destruct (m s) as [[[a | n] s1] l1]; [ | exact Hm].
  destruct Hm as [_ Hl1]. specialize (Hk a s1).
  destruct (k a s1) as [[[b | n] s2] l2]; rewrite existsb_app, Hl1;
    exact Hk.
Qed.

(** A call whose failure is fatal, followed by code that exits when it
    fails. *)
Lemma guf_checked {A B} (Q : B -> Prop) (m : M W A) (k : A -> M W B) :
  (forall s, exists a s' ev,
      m s = (Ret a, s', [ev])
      /\ if fatal ev
         then exists l, k a s' = (Exit 1, s', l)
         else gives_up_on_fatal Q (k a)) ->
  gives_up_on_fatal Q (bind m k).
Proof.
  intros H s. destruct (H s) as (a & s' & ev & Hm & Hk). unfold bind.
  rewrite Hm. destruct (fatal ev) eqn:E.
  - destruct Hk as (l & Hk). rewrite Hk. simpl. rewrite E. auto.
  - specialize (Hk s'). destruct (k a s') as [[[b | n] s2] l2];
      simpl; rewrite E; exact Hk.
Qed.

Lemma guf_log {A} (m : M W A) :
  (forall s, exists a s', m s = (Ret a, s', [])
             \/ exists ev, m s = (Ret a, s', [ev]) /\ fatal ev = false) ->
  gives_up_on_fatal any m.
Proof.
  intros H s. destruct (H s) as (a & s' & [-> | (ev & -> & E)]); simpl.
  - split; [exact I | reflexivity].
  - rewrite E. split; [exact I | reflexivity].
Qed.

Lemma guf_query {A} (r : W -> Z + A) (ev : bool -> event) :
  fatal (ev true) = false -> fatal (ev false) = false ->
  gives_up_on_fatal any (fun s => query (r (world s)) ev s).
Proof.
  intros Ht Hf. apply guf_log. intros s. unfold query.
  destruct (r (world s)); do 2 eexists; right; eexists; split;
    try reflexivity; assumption.
Qed.

Lemma guf_stdout (text : string) :
  gives_up_on_fatal any (fprintf_stdout (W:=W) text).
Proof. intros s. simpl. split; [exact I | reflexivity]. Qed.

Lemma guf_err_sys (msg : string) : gives_up_on_fatal any (err_sys K msg).
Proof. intros s. simpl. split; [exact I | reflexivity]. Qed.

Lemma guf_get_stat (p : string) : gives_up_on_fatal any (get_stat K g p).
Proof.
  unfold get_stat. destruct (negb (follow g =? 0)).
  - apply (guf_query (fun w => k_stat K w p) (EvStat p)); reflexivity.
  - apply (guf_query (fun w => k_lstat K w p) (EvLstat p)); reflexivity.
Qed.

Lemma guf_fmt_name (buf : stat_t) (name : string) :
  gives_up_on_fatal any (fmt_name K buf name).
Proof.
  unfold fmt_name. destruct (S_ISLNK (st_mode buf)).
  2: { apply guf_log. intros s. unfold sys_strdup.
       destruct (k_malloc K (world s) _) as [[|] w'];
         do 2 eexists; right; eexists; split; reflexivity. }
  apply guf_checked. intros s. unfold sys_malloc.
  destruct (k_malloc K (world s) 4096) as [[|] w'];
    do 3 eexists; (split; [reflexivity | ]); simpl.
  - apply guf_checked. intros s1. unfold sys_readlink, query.
    destruct (k_readlink K (world s1) name _) as [e | target];
      do 3 eexists; (split; [reflexivity | ]); simpl.
    + eexists. reflexivity.
    + apply guf_ret. exact I.
  - eexists. reflexivity.
Qed.

Lemma guf_pr_line (buf : stat_t) (name : string) :
  gives_up_on_fatal any (pr_line K g buf name).
Proof.
  unfold pr_line, fmt_owner, fmt_group, fmt_time.
  repeat first
    [ apply guf_fmt_name
    | apply guf_stdout
    | apply guf_ret; exact I
    | apply guf_log; intros s; do 2 eexists; left; reflexivity
    | apply guf_bind; [ | intros ? ] ].
Qed.

Lemma guf_do_file (file : string) :
  gives_up_on_fatal any (do_file K g file).
Proof.
  unfold do_file. destruct (negb (skip g file =? 0));
    [apply guf_ret; exact I | ].
  apply guf_bind; [apply guf_get_stat | ].
  intros [buf | ]; [apply guf_pr_line | apply guf_err_sys].
Qed.

Lemma guf_do_files (l : list string) :
  gives_up_on_fatal any (do_files K g l).
Proof.
  induction l as [| f r IH]; simpl; [apply guf_ret; exact I | ].
  apply guf_bind; [apply guf_do_file | intros _; exact IH].
Qed.

Lemma guf_listdir (dir : string) :
  gives_up_on_fatal any (listdir K dir).
Proof.
  unfold listdir. apply guf_checked. intros s. unfold sys_malloc.
  destruct (k_malloc K (world s) (8 * 32)) as [[|] w'];
    do 3 eexists; (split; [reflexivity | ]); simpl.
  - apply guf_bind.
    + apply (guf_query (fun w => k_readdir K w dir) (EvOpendir dir));
        reflexivity.
    + intros [names | ]; [apply guf_ret; exact I | ].
      apply guf_bind; [apply guf_err_sys | intros _; apply guf_ret; exact I].
  - eexists. reflexivity.
Qed.

Lemma guf_do_dir (dc : Z) (cwd dir : string) :
  gives_up_on_fatal any (do_dir K g dc cwd dir).
Proof.
  unfold do_dir. apply guf_bind; [apply guf_listdir | ].
  intros [names | ]; [ | apply guf_ret; exact I].
  apply guf_bind.
  { apply guf_log. intros s. unfold sys_chdir.
    destruct (k_chdir K (world s) dir); do 2 eexists; right; eexists;
      split; reflexivity. }
  intros [|]; simpl; [ | apply guf_err_sys].
  apply guf_bind.
  { destruct (_ && _); [apply guf_stdout | apply guf_ret; exact I]. }
  intros _. apply guf_bind; [apply guf_do_files | intros _].
  apply guf_checked. intros s. unfold sys_chdir.
  destruct (k_chdir K (world s) cwd);
    do 3 eexists; (split; [reflexivity | ]); simpl.
  - eexists. reflexivity.
  - apply guf_ret. exact I.
Qed.

Lemma guf_do_dirs_loop (dc : Z) (cwd : string) (dirs : list string) :
  gives_up_on_fatal any (do_dirs_loop K g dc cwd dirs).
Proof.
  induction dirs as [| d r IH]; simpl; [apply guf_ret; exact I | ].
  apply guf_bind; [apply guf_do_dir | intros _; exact IH].
Qed.

Lemma guf_do_dirs (dirs : list string) :
  gives_up_on_fatal any (do_dirs K g dirs).
Proof.
  unfold do_dirs. apply guf_checked. intros s. unfold sys_getcwd, query.
  destruct (k_getcwd K (world s) 4096) as [e | cwd];
    do 3 eexists; (split; [reflexivity | ]); simpl.
  - eexists. reflexivity.
  - apply guf_do_dirs_loop.
Qed.

Lemma stat_events_not_fatal (ok : string -> bool) (l : list string) :
  existsb fatal (map (fun p => EvStat p (ok p)) l) = false.
Proof. induction l as [| p r IH]; simpl; [reflexivity | exact IH]. Qed.

Lemma guf_classify : gives_up_on_fatal any (classify K g).
Proof.
  intros s. destruct (classify_run K g s) as (s' & H & _). rewrite H.
  split; [exact I | ].
  apply (stat_events_not_fatal
           (fun p => succeeds (k_stat K (world s) p))).
Qed.

Lemma main_list_status (s : state W) :
  exit_status (main_list K g s)
  = if existsb fatal (log_of (main_list K g s)) then 1 else 0.
Proof.
  assert (Hrest : gives_up_on_fatal (fun n => n = 0)
            (c <- classify K g ;;
             do_files K g (sort (snd c)) ;;
             do_dirs K g (sort (fst c)) ;;
             ret 0)).
  { apply guf_bind; [apply guf_classify | intros c].
    apply guf_bind; [apply guf_do_files | intros _].
    apply guf_bind; [apply guf_do_dirs | intros _].
    apply guf_ret. reflexivity. }
  unfold main_list.
  set (rest := c <- classify K g ;; _) in *.
  unfold bind, sys_malloc.
  destruct (k_malloc K (world s) (array_bytes (fc g))) as [[|] w1];
    destruct (k_malloc K _ (array_bytes (fc g))) as [[|] w2];
    try reflexivity.
  change (negb true || negb true) with false. cbv iota.
  match goal with
  | |- context [rest ?s0] =>
      specialize (Hrest s0); destruct (rest s0) as [[[n | n] s3] l3]
  end; unfold exit_status, log_of; simpl; destruct Hrest as [-> ->];
    reflexivity.
Qed.
End ExitFacts.

(** The failures the source checks for: the exit status is 1 exactly when
    the run met a failed [malloc] whose result is tested, a failed [getcwd],
    a failed [chdir] back to the starting directory or a failed [readlink],
    and 0 otherwise, whatever lookups, directory openings or [chdir]s into a
    directory failed on the way.  The [strdup] of [fmt_name] is not among
    them; the allocations of [listdir] and [do_dirs] that the source does
    not test are taken to succeed. *)
Theorem exit_status_policy {W : Type} (K : kernel W) (argv : list string)
  (s : state W) :
  exit_status (main K argv s)
  = if existsb fatal (log_of (main K argv s)) then 1 else 0.
Proof.
  unfold main. destruct (parse_args argv g_args0) as [r g].
  destruct (negb (r =? 0)); [reflexivity | apply main_list_status].
Qed.

(** C6: a failing allocation is to end the run with status 1; the program
    does not do so for the [strdup] of [fmt_name], whose result it never
    tests.  In [ls notes], when the copy of the name cannot be allocated,
    the line is printed with [(null)] in place of the name, nothing is
    written to stderr, and the process ends with status 0. *)
Lemma failed_strdup_exit_0 :
  (main Toy.K ["ls"; "notes"] (Toy.start Toy.tight)
   = (Ret 0, mk_state Toy.home ENOMEM,
      [EvMalloc 8 true; EvMalloc 8 true; EvStat "notes" true;
       EvLstat "notes" true; EvStdout "11     "; EvStdout "1  ";
       EvStdout "-rw-r--r-- "; EvStdout "root     "; EvStdout "root     ";
       EvStdout "   1536 "; EvStdout "1970-01-01 00:00 ";
       EvStrdup "notes" false; EvStdout "(null)"; EvStdout (String "010" "");
       EvGetcwd true])
   /\ stdout_text
        (log_of (main Toy.K ["ls"; "notes"] (Toy.start Toy.tight)))
      = ("11     1  -rw-r--r-- root     root        1536 1970-01-01 00:00 "
         ++ "(null)" ++ String "010" "")%string
   /\ exit_status (main Toy.K ["ls"; "notes"] (Toy.start Toy.tight)) = 0)
  /\ ~ (forall (W : Type) (K : kernel W) (argv : list string) (s : state W),
          existsb allocation_failed (log_of (main K argv s)) = true ->
          exit_status (main K argv s) = 1).
Proof.
  split; [repeat split | ].
  intros H.
  specialize (H Toy.world Toy.K ["ls"; "notes"] (Toy.start Toy.tight)
                eq_refl).
  discriminate H.
Qed.

(** A run in which an operand is missing and the directory operand cannot
    be opened still ends with status 0. *)
Example partial_failures_exit_0 :
  let K' := mk_kernel Toy.world Toy.stat Toy.lstat Toy.readlink
              (fun _ _ => inl 13) Toy.chdir Toy.getcwd
              Toy.malloc Toy.getpwuid Toy.getgrgid Toy.strftime
              Toy.strerror in
  let r := main K' ["ls"; "nope"; "notes"; "/home"] (Toy.start Toy.home) in
  exit_status r = 0
  /\ In (EvLstat "nope" false) (log_of r)
  /\ In (EvOpendir "/home" false) (log_of r).
Proof. vm_compute. split; [reflexivity | ]. tauto. Qed.

(** A link that cannot be read ends the run with status 1. *)
Example unreadable_link_exit_1 :
  let K' := mk_kernel Toy.world Toy.stat Toy.lstat
              (fun _ _ _ => inl Toy.EINVAL) Toy.readdir Toy.chdir Toy.getcwd
              Toy.malloc Toy.getpwuid Toy.getgrgid Toy.strftime
              Toy.strerror in
  let r := main K' ["ls"; "-a"] (Toy.start Toy.home) in
  exit_status r = 1 /\ In (EvReadlink "docs" false) (log_of r).
Proof. vm_compute. split; [reflexivity | ]. tauto. Qed.

(** ** Usage *)

Lemma seen_invalid (codes : list ascii) :
  seen "?" codes = true -> forallb valid_opt codes = false.
Proof.
  unfold seen. induction codes as [| c r IH]; cbn [existsb forallb];
    [discriminate | ].
  destruct (Ascii.eqb "?" c) eqn:E.
  - apply Ascii.eqb_eq in E. subst c. reflexivity.
  - cbn [orb]. intros H. rewrite (IH H). apply andb_false_r.
Qed.

Lemma seen_app (c : ascii) (l1 l2 : list ascii) :
  seen c (l1 ++ l2) = seen c l1 || seen c l2.
Proof. apply existsb_app. Qed.

Lemma seen_cons (c x : ascii) (l : list ascii) :
  seen c l = true -> seen c (x :: l) = true.
Proof. intros H. unfold seen in *. cbn [existsb]. rewrite H. apply orb_true_r. Qed.

Lemma seen_app_r (c : ascii) (x l : list ascii) :
  seen c l = true -> seen c (x ++ l) = true.
Proof. intros H. rewrite seen_app, H. apply orb_true_r. Qed.

Ltac getopt_step rest :=
  cbn [getopt_long]; destruct (getopt_long rest); cbn [fst] in *;
  first [ assumption | apply seen_cons; assumption
        | apply seen_app_r; assumption ].

(** Scanning one more argument in front keeps a reported ['?']. *)
Lemma getopt_cons_seen (a : string) (rest : list string) :
  a <> "--" ->
  seen "?" (fst (getopt_long rest)) = true ->
  seen "?" (fst (getopt_long (a :: rest))) = true.
Proof.
  intros Ha H.
  destruct a as [| [[|] [|] [|] [|] [|] [|] [|] [|]] a1];
    try (getopt_step rest).
  destruct a1 as [| [[|] [|] [|] [|] [|] [|] [|] [|]] a2];
    try (getopt_step rest).
  destruct a2 as [| d a3]; [contradiction | getopt_step rest].
Qed.

Lemma getopt_cons_short (c : ascii) (r : string) (rest : list string) :
  c <> "-"%char ->
  getopt_long (String "-" (String c r) :: rest)
  = (short_codes (String c r) ++ fst (getopt_long rest),
     snd (getopt_long rest)).
Proof.
  intros Hc.
  destruct c as [[|] [|] [|] [|] [|] [|] [|] [|]];
    try (cbn [getopt_long]; destruct (getopt_long rest); reflexivity).
  contradiction.
Qed.

(** An argument [-c...] whose first letter is not an option letter makes
    [getopt_long] return ['?'], wherever it stands before a [--]. *)
Lemma getopt_unknown_short (pre post : list string) (c : ascii) (r : string) :
  Forall (fun a => a <> "--") pre ->
  mem_char c opts = false -> c <> "-"%char ->
  seen "?" (fst (getopt_long (pre ++ String "-" (String c r) :: post))) = true.
Proof.
  intros Hpre Hc Hd. induction Hpre as [| a pre' Ha _ IH]; cbn [app].
  - rewrite (getopt_cons_short c r post Hd). cbn [fst short_codes].
    rewrite Hc. reflexivity.
  - apply getopt_cons_seen; assumption.
Qed.

(** C7: when [getopt_long] reports an unrecognized flag, the program writes
    the usage text to stdout, does nothing else (no system call, no other
    output, the state untouched) and ends with status 0. *)
Theorem unrecognized_flag_usage {W : Type} (K : kernel W)
  (argv : list string) (s : state W) :
  seen "?" (fst (getopt_long (tl argv))) = true ->
  main K argv s = (Ret 0, s, [EvStdout usage_text])
  /\ exit_status (main K argv s) = 0.
Proof.
  intros H. apply seen_invalid in H.
  assert (Hm : main K argv s = (Ret 0, s, [EvStdout usage_text])).
  { unfold main, parse_args.
    destruct argv as [| argv0 args]; [discriminate H | ]. cbn [tl] in H.
    destruct (getopt_long args) as [codes operands]. simpl in H.
    pose proof (parse_opts_ok codes g_args0) as Hok. rewrite H in Hok.
    destruct (parse_opts codes g_args0) as [ok g']. simpl in Hok. subst ok.
    reflexivity. }
  split; [exact Hm | rewrite Hm; reflexivity].
Qed.

Lemma unrecognized_flag_usage_witness :
  seen "?" (fst (getopt_long (tl ["ls"; "-a"; "-z"; "notes"]))) = true
  /\ main Toy.K ["ls"; "-a"; "-z"; "notes"] (Toy.start Toy.home)
     = (Ret 0, Toy.start Toy.home, [EvStdout usage_text]).
Proof.
  split; [reflexivity | ].
  apply (unrecognized_flag_usage Toy.K ["ls"; "-a"; "-z"; "notes"]
           (Toy.start Toy.home) eq_refl).
Defined.

(** * Further properties of the code *)

(** ** [fmt_mode] *)

Lemma range_check (P : Z -> bool) (n : nat) :
  forallb P (map Z.of_nat (seq 0 n)) = true ->
  forall m, 0 <= m < Z.of_nat n -> P m = true.
Proof.
  intros H m Hm. rewrite forallb_forall in H. apply H.
  apply in_map_iff. exists (Z.to_nat m). split; [lia | ].
  apply in_seq. lia.
Qed.

Lemma land_masked (bit mask mode : Z) :
  Z.land bit mask = bit -> Z.land bit (Z.land mode mask) = Z.land bit mode.
Proof.
  intros H. rewrite (Z.land_comm mode mask), Z.land_assoc, H. reflexivity.
Qed.

Lemma perm_char_masked (mode mask bit : Z) (c : ascii) :
  Z.land bit mask = bit ->
  perm_char (Z.land mode mask) bit c = perm_char mode bit c.
Proof. intros H. unfold perm_char. rewrite (land_masked _ _ _ H). reflexivity. Qed.

Lemma type_masked (mode mask : Z) :
  Z.land S_IFMT mask = S_IFMT ->
  Z.land (Z.land mode mask) S_IFMT = Z.land mode S_IFMT.
Proof.
  intros H. rewrite (Z.land_comm _ S_IFMT), (land_masked _ _ _ H).
  apply Z.land_comm.
Qed.

Lemma fmt_mode_masked (mode mask : Z) :
  Z.land MODE_SHOWN mask = MODE_SHOWN ->
  fmt_mode (Z.land mode mask) = fmt_mode mode.
Proof.
  intros H.
  assert (Hbit : forall bit, Z.land bit MODE_SHOWN = bit ->
                             Z.land bit mask = bit).
  { intros bit Hb. rewrite <- Hb at 1. rewrite <- Z.land_assoc, H. exact Hb. }
  unfold fmt_mode, S_ISDIR, S_ISLNK, S_ISCHR, S_ISBLK, S_ISFIFO, S_ISSOCK.
  rewrite (type_masked mode mask (Hbit _ eq_refl)).
  rewrite !perm_char_masked by (apply Hbit; reflexivity).
  reflexivity.
Qed.

(** X1: a mode string always has ten characters, and it shows the file type
    and the nine permission bits only: the set-user-id, set-group-id and
    sticky bits, like any other bit of the mode, never change it. *)
Theorem fmt_mode_shape (mode : Z) :
  String.length (fmt_mode mode) = 10%nat
  /\ fmt_mode (Z.land mode MODE_SHOWN) = fmt_mode mode
  /\ (forall other, Z.land other MODE_SHOWN = 0 ->
      fmt_mode (Z.lor mode other) = fmt_mode mode).
Proof.
  split; [reflexivity | ]. split; [apply fmt_mode_masked; reflexivity | ].
  intros other H.
  rewrite <- (fmt_mode_masked (Z.lor mode other) MODE_SHOWN eq_refl).
  rewrite Z.land_lor_distr_l, H, Z.lor_0_r.
  apply fmt_mode_masked. reflexivity.
Qed.

Lemma fmt_mode_shape_witness :
  Z.land 3584 MODE_SHOWN = 0
  /\ fmt_mode (Z.lor 33188 3584) = "-rw-r--r--".
Proof.
  destruct (fmt_mode_shape 33188) as (_ & _ & H).
  split; [reflexivity | ]. rewrite (H 3584 eq_refl). reflexivity.
Defined.

(** X2: the nine permission letters of a mode string give back the nine
    permission bits of the mode. *)
Theorem fmt_mode_perm_roundtrip (mode : Z) :
  perm_bits (fmt_mode mode) = Z.land mode 511.
Proof.
  assert (H511 : Z.land MODE_SHOWN 511 = 511) by reflexivity.
  assert (Hperm : forall m, fmt_mode (Z.land m 511)
                            = String "-" (substring 1 9 (fmt_mode m))).
  { intros m. unfold fmt_mode, S_ISDIR, S_ISLNK, S_ISCHR, S_ISBLK, S_ISFIFO,
      S_ISSOCK.
    rewrite !perm_char_masked by reflexivity.
    replace (Z.land (Z.land m 511) S_IFMT) with 0.
    - reflexivity.
    - rewrite <- Z.land_assoc. change (Z.land 511 S_IFMT) with 0.
      symmetry. apply Z.land_0_r. }
  assert (Hsame : perm_bits (fmt_mode mode)
                  = perm_bits (fmt_mode (Z.land mode 511))).
  { rewrite Hperm. unfold fmt_mode. reflexivity. }
  rewrite Hsame.
  assert (Hr : 0 <= Z.land mode 511 < Z.of_nat 512).
  { split; [apply Z.land_nonneg; right; lia | ].
    change (Z.of_nat 512) with (2 ^ 9).
    change 511 with (Z.ones 9). rewrite Z.land_ones by lia.
    apply Z.mod_pos_bound. lia. }
  pose proof (range_check (fun m => perm_bits (fmt_mode m) =? m) 512
                ltac:(vm_compute; reflexivity) _ Hr) as Hc.
  apply Z.eqb_eq in Hc. exact Hc.
Qed.

(** ** [err_sys] *)

Lemma substring_length (n : nat) (s : string) :
  String.length (substring 0 n s) = Nat.min n (String.length s).
Proof.
  revert n. induction s as [| c r IH]; intros [| n]; simpl; auto.
Qed.

Lemma substring_all (n : nat) (s : string) :
  (String.length s <= n)%nat -> substring 0 n s = s.
Proof.
  revert n. induction s as [| c r IH]; intros [| n] H; simpl in *;
    try reflexivity; try lia.
  f_equal. apply IH. lia.
Qed.

Lemma append_length (a b : string) :
  String.length (a ++ b) = (String.length a + String.length b)%nat.
Proof. induction a as [| c r IH]; simpl; auto. Qed.


(** X4: as long as the message, [": "], the error text and the newline fit
    in the buffer with its terminating NUL, nothing is cut: the text is the
    message, a colon and a space, the error text and a newline. *)
Theorem err_text_exact {W : Type} (K : kernel W) (msg : string) (e : Z) :
  (String.length msg + 2 + String.length (k_strerror K e) + 1 < MAXLINE)%nat ->
  err_text K msg e
  = (msg ++ ": " ++ k_strerror K e ++ String "010" "")%string.
Proof.
  unfold err_text, MAXLINE. intros H.
  change 2048%nat with (2047 + 1)%nat in *. rewrite Nat.add_sub.
  revert H. generalize 2047%nat. intros n H.
  rewrite (substring_all n msg) by lia.
  rewrite substring_all; [reflexivity | ]. simpl String.length. lia.
Qed.

Lemma err_text_exact_witness :
  (String.length "ls: can not access nope" + 2
   + String.length (k_strerror Toy.K Toy.ENOENT) + 1 < MAXLINE)%nat
  /\ err_text Toy.K "ls: can not access nope" Toy.ENOENT
     = ("ls: can not access nope: No such file or directory"
        ++ String "010" "")%string.
Proof.
  assert (H : (String.length "ls: can not access nope" + 2
               + String.length (k_strerror Toy.K Toy.ENOENT) + 1
               < MAXLINE)%nat).
  { apply Nat.ltb_lt. vm_compute. reflexivity. }
  split; [exact H | ].
  rewrite (err_text_exact Toy.K "ls: can not access nope" Toy.ENOENT H).
  reflexivity.
Defined.

(** ** [parse_args] *)

Lemma parse_opts_start (codes : list ascii) (g : arg_t) :
  parse_opts codes g_args0 = (true, g) ->
  all g = (if seen "a" codes then 1 else 0)
  /\ almost g = (if seen "A" codes then 1 else 0)
  /\ human g = (if seen "h" codes then 1 else 0)
  /\ follow g = (if seen "L" codes then 1 else 0).
Proof.
  intros H. apply parse_opts_fields in H.
  destruct H as (H1 & H2 & H3 & H4 & _). auto.
Qed.

(** X5: when [argv] holds at least the program name, after a successful
    [parse_args] there is at least one name to list, [fc] is their number,
    the names are the operands in their order or, without operands, ["."]
    alone; every flag is 0 or 1, each set exactly when its option was given,
    except that [almost] is cleared when [all] is set: the two are never set
    together. *)
Theorem parse_args_invariants (argv : list string) (g : arg_t) :
  argv <> [] ->
  parse_args argv g_args0 = (0, g) ->
  let codes := fst (getopt_long (tl argv)) in
  let operands := snd (getopt_long (tl argv)) in
  fc g = Z.of_nat (List.length (files g))
  /\ 1 <= fc g
  /\ files g = (if (List.length operands =? 0)%nat then ["."] else operands)
  /\ all g = (if seen "a" codes then 1 else 0)
  /\ almost g = (if seen "A" codes && negb (seen "a" codes) then 1 else 0)
  /\ human g = (if seen "h" codes then 1 else 0)
  /\ follow g = (if seen "L" codes then 1 else 0)
  /\ (all g = 0 \/ almost g = 0).
Proof.
  intros Hargv. unfold parse_args.
  destruct argv as [| argv0 args]; [contradiction | ]. cbn [tl].
  destruct (getopt_long args) as [codes operands].
  simpl fst. simpl snd.
  destruct (parse_opts codes g_args0) as [[|] g1] eqn:P; [ | discriminate].
  intros [= <-]. apply parse_opts_start in P.
  destruct P as (Ha & HA & Hh & HL).
  unfold finish_args.
  destruct (seen "a" codes), (seen "A" codes);
    rewrite Ha, HA; simpl negb; simpl andb; cbv iota;
    destruct operands as [| o r]; simpl;
    rewrite ?Ha, ?HA, ?Hh, ?HL;
    repeat split; try reflexivity; try lia; auto.
Qed.

Lemma parse_args_invariants_witness :
  ["ls"; "-aA"; "x"; "-h"; "y"] <> []
  /\ parse_args ["ls"; "-aA"; "x"; "-h"; "y"] g_args0
     = (0, mk_args 1 0 1 0 ["x"; "y"] 2)
  /\ fc (mk_args 1 0 1 0 ["x"; "y"] 2) = 2
  /\ almost (mk_args 1 0 1 0 ["x"; "y"] 2) = 0.
Proof.
  assert (N : ["ls"; "-aA"; "x"; "-h"; "y"] <> []) by discriminate.
  assert (H : parse_args ["ls"; "-aA"; "x"; "-h"; "y"] g_args0
              = (0, mk_args 1 0 1 0 ["x"; "y"] 2)) by reflexivity.
  destruct (parse_args_invariants _ _ N H) as (Hfc & _ & _ & _ & HA & _).
  split; [exact N | ]. split; [exact H | ]. split; [exact Hfc | exact HA].
Defined.

(** Without even a program name, [parse_args] succeeds with [fc] at -1 and
    no default operand. *)
Example parse_args_no_argv :
  parse_args [] g_args0 = (0, mk_args 0 0 0 0 [] (-1)).
Proof. reflexivity. Qed.

Lemma arg_t_eq (g1 g2 : arg_t) :
  all g1 = all g2 -> almost g1 = almost g2 -> human g1 = human g2 ->
  follow g1 = follow g2 -> files g1 = files g2 -> fc g1 = fc g2 -> g1 = g2.
Proof. destruct g1, g2; simpl; intros; subst; reflexivity. Qed.

Lemma seen_valid (codes codes' : list ascii) :
  (forall c, seen c codes = seen c codes') ->
  forallb valid_opt codes = true -> forallb valid_opt codes' = true.
Proof.
  intros H Hv. apply forallb_forall. intros c Hc.
  assert (Hs : seen c codes = true).
  { rewrite H. unfold seen. apply existsb_exists. exists c.
    split; [exact Hc | apply Ascii.eqb_refl]. }
  unfold seen in Hs. apply existsb_exists in Hs.
  destruct Hs as (d & Hd & E). apply Ascii.eqb_eq in E. subst d.
  rewrite forallb_forall in Hv. apply Hv, Hd.
Qed.

(** X6: the option loop treats the options as a set: two command lines on
    which [getopt_long] reports the same option characters, in any order
    and any number of times, are both accepted or both rejected, and when
    accepted leave the same [g_args]. *)
Theorem parse_opts_set (codes codes' : list ascii) :
  (forall c, seen c codes = seen c codes') ->
  fst (parse_opts codes g_args0) = fst (parse_opts codes' g_args0)
  /\ (fst (parse_opts codes g_args0) = true ->
      parse_opts codes g_args0 = parse_opts codes' g_args0).
Proof.
  intros H.
  assert (Hok : fst (parse_opts codes g_args0)
                = fst (parse_opts codes' g_args0)).
  { rewrite !parse_opts_ok.
    destruct (forallb valid_opt codes) eqn:E1.
    - symmetry. apply (seen_valid codes codes' H E1).
    - destruct (forallb valid_opt codes') eqn:E2; [ | reflexivity].
      rewrite (seen_valid codes' codes) in E1; [discriminate | | exact E2].
      intros c. symmetry. apply H. }
  split; [exact Hok | ]. intros Ht.
  rewrite Ht in Hok.
  destruct (parse_opts codes g_args0) as [ok1 g1] eqn:P1.
  destruct (parse_opts codes' g_args0) as [ok2 g2] eqn:P2.
  simpl in *. subst ok1 ok2. f_equal.
  apply parse_opts_fields in P1. apply parse_opts_fields in P2.
  destruct P1 as (A1 & B1 & C1 & D1 & E1 & F1).
  destruct P2 as (A2 & B2 & C2 & D2 & E2 & F2).
  apply arg_t_eq; rewrite ?A1, ?B1, ?C1, ?D1, ?E1, ?F1,
                          ?A2, ?B2, ?C2, ?D2, ?E2, ?F2, ?H; reflexivity.
Qed.

Lemma parse_opts_set_witness :
  parse_opts ["h"%char; "a"%char; "h"%char] g_args0
  = parse_opts ["a"%char; "h"%char] g_args0.
Proof.
  assert (H : forall c, seen c ["h"%char; "a"%char; "h"%char]
                        = seen c ["a"%char; "h"%char]).
  { intros c. unfold seen. cbn [existsb].
    destruct (Ascii.eqb c "h"), (Ascii.eqb c "a"); reflexivity. }
  destruct (parse_opts_set _ _ H) as [_ H2]. apply H2. reflexivity.
Defined.

(** ** [cmp] *)

(** X7: [cmp] is a consistent comparison, as [qsort] requires: a name
    compares equal to itself, swapping the arguments negates the result,
    and "not greater" is transitive. *)
Theorem cmp_consistent (a b c : string) :
  cmp a a = 0
  /\ cmp b a = - cmp a b
  /\ (cmp a b <= 0 -> cmp b c <= 0 -> cmp a c <= 0)
  /\ (cmp a b = 0 -> cmp b c = 0 -> cmp a c = 0).
Proof.
  assert (Hanti : forall x y, cmp y x = - cmp x y).
  { intros x y. apply strcasecmp_antisym. }
  split; [pose proof (Hanti a a); lia | ].
  split; [apply Hanti | ]. split; [apply cmp_trans | ].
  intros H1 H2.
  assert (cmp a c <= 0) by (apply (cmp_trans a b c); lia).
  assert (cmp c a <= 0).
  { apply (cmp_trans c b a); rewrite Hanti; lia. }
  rewrite (Hanti a c) in *. lia.
Qed.

Lemma cmp_consistent_witness :
  cmp "Makefile" "makefile" = 0 /\ cmp "makefile" "MAKEFILE" = 0
  /\ cmp "Makefile" "MAKEFILE" = 0.
Proof.
  destruct (cmp_consistent "Makefile" "makefile" "MAKEFILE")
    as (_ & _ & _ & H).
  split; [reflexivity | ]. split; [reflexivity | ].
  apply H; reflexivity.
Defined.

Lemma tolower_range (x : Z) : 0 <= x < 256 -> 0 <= tolower x < 256.
Proof. unfold tolower. destruct (_ && _) eqn:E; lia. Qed.

Lemma tolower_zero (x : Z) : 0 <= x -> (tolower x = 0 <-> x = 0).
Proof. unfold tolower. destruct (_ && _) eqn:E; lia. Qed.

Lemma byte_lower_char (c : ascii) :
  byte_of (lower_char c) = tolower (byte_of c).
Proof.
  unfold lower_char. pose proof (tolower_range _ (byte_of_range c)) as H.
  unfold byte_of at 1. rewrite N_ascii_embedding.
  - apply Z2N.id. lia.
  - change 256%N with (Z.to_N 256). apply Z2N.inj_lt; lia.
Qed.

Lemma lower_char_eq (c d : ascii) :
  lower_char c = lower_char d <->
  tolower (byte_of c) = tolower (byte_of d).
Proof.
  split.
  - intros H. rewrite <- !byte_lower_char, H. reflexivity.
  - intros H. apply byte_of_inj. rewrite !byte_lower_char. exact H.
Qed.

(** X8: two names compare equal exactly when they are the same once their
    ASCII capitals are lowered; bytes outside A-Z are compared as they
    are. *)
Theorem cmp_zero_iff_same_lowered (a b : string) :
  c_string a = true -> c_string b = true ->
  (cmp a b = 0 <-> lower_string a = lower_string b).
Proof.
  unfold cmp. revert b. induction a as [| c r IH]; intros [| d r'] Ha Hb;
    simpl in *.
  - change (tolower 0) with 0. split; reflexivity.
  - apply andb_true_iff in Hb. destruct Hb as [Hd _].
    pose proof (tolower_zero _ (proj1 (byte_of_range d))).
    split; [ | discriminate]. lia.
  - apply andb_true_iff in Ha. destruct Ha as [Hc _].
    pose proof (tolower_zero _ (proj1 (byte_of_range c))).
    change (tolower 0) with 0.
    destruct (tolower (byte_of c) =? 0) eqn:E0; [lia | ].
    split; [lia | discriminate].
  - apply andb_true_iff in Ha. destruct Ha as [Hc Hr].
    apply andb_true_iff in Hb. destruct Hb as [Hd Hr'].
    pose proof (tolower_zero _ (proj1 (byte_of_range c))).
    destruct (tolower (byte_of c) =? 0) eqn:E0; [lia | ].
    destruct (tolower (byte_of c) =? tolower (byte_of d)) eqn:E1.
    + rewrite (IH r' Hr Hr'). split.
      * intros ->. f_equal. apply lower_char_eq. lia.
      * intros [= _ H1]. exact H1.
    + split; [lia | ]. intros [= H1 _]. apply lower_char_eq in H1. lia.
Qed.

Lemma cmp_zero_iff_same_lowered_witness :
  c_string "ReadMe.TXT" = true /\ c_string "readme.txt" = true
  /\ cmp "ReadMe.TXT" "readme.txt" = 0.
Proof.
  split; [reflexivity | ]. split; [reflexivity | ].
  apply (cmp_zero_iff_same_lowered "ReadMe.TXT" "readme.txt");
    reflexivity.
Defined.

(** ** The width of the size column *)

Lemma spaces_length (n : nat) : String.length (spaces n) = n.
Proof. induction n; simpl; auto. Qed.

Lemma pad_left_length (w : nat) (s : string) :
  String.length (pad_left w s) = Nat.max w (String.length s).
Proof. unfold pad_left. rewrite append_length, spaces_length. lia. Qed.

Lemma dec_digits_length (fuel : nat) :
  forall n acc k, (1 <= k <= fuel)%nat -> 0 <= n < 10 ^ Z.of_nat k ->
  (1 + String.length acc <= String.length (dec_digits fuel n acc)
   <= k + String.length acc)%nat.
Proof.
  induction fuel as [| f IH]; intros n acc k Hk Hn; [lia | ].
  simpl dec_digits. destruct (n <? 10) eqn:E; [simpl; lia | ].
  assert (Hk2 : (2 <= k)%nat).
  { destruct k as [| [| k']]; [lia | | lia]. simpl in Hn. lia. }
  assert (Hq : 0 <= n / 10 < 10 ^ Z.of_nat (k - 1)).
  { split; [apply Z.div_pos; lia | ].
    apply Z.div_lt_upper_bound; [lia | ].
    rewrite <- Z.pow_succ_r by lia.
    replace (Z.succ (Z.of_nat (k - 1))) with (Z.of_nat k) by lia. lia. }
  specialize (IH (n / 10) (String (digit_char (n mod 10)) acc) (k - 1)%nat
                ltac:(lia) Hq).
  simpl String.length in IH. lia.
Qed.

Lemma dec_length (n : Z) (k : nat) :
  (1 <= k <= 20)%nat -> 0 <= n < 10 ^ Z.of_nat k ->
  (1 <= String.length (dec n) <= k)%nat.
Proof.
  intros Hk Hn. unfold dec. destruct (n <? 0) eqn:E.
  - apply Z.ltb_lt in E. exfalso. destruct Hn as [Hn _]. lia.
  - pose proof (dec_digits_length 20 n "" k Hk Hn) as H.
    change (String.length "") with 0%nat in H.
    rewrite !Nat.add_0_r in H. exact H.
Qed.

Lemma fmt_f1_length (d k : Z) :
  0 <= tenths d k < 100000 -> String.length (fmt_f1 d k) = 6%nat.
Proof.
  intros Ht. unfold fmt_f1. rewrite pad_left_length, append_length.
  simpl String.length.
  assert (H1 : 0 <= tenths d k / 10 < 10 ^ Z.of_nat 4).
  { split; [apply Z.div_pos; lia | ].
    apply Z.div_lt_upper_bound; [lia | ]. simpl. lia. }
  assert (H2 : 0 <= tenths d k mod 10 < 10 ^ Z.of_nat 1).
  { apply Z.mod_pos_bound. lia. }
  pose proof (dec_length _ 4 ltac:(lia) H1).
  pose proof (dec_length _ 1 ltac:(lia) H2). lia.
Qed.

Lemma tenths_scaled (size k : Z) :
  0 < k -> 2 ^ k <= size < 2 ^ (k + 10) -> size < 2 ^ 53 ->
  0 <= tenths (to_double size) k < 100000.
Proof.
  intros Hk Hs H53.
  assert (Hp : 0 < 2 ^ k) by (apply Z.pow_pos_nonneg; lia).
  rewrite to_double_exact by lia.
  pose proof (tenths_nearest size k ltac:(lia) Hk) as Hn.
  rewrite Z.pow_add_r in Hs by lia. change (2 ^ 10) with 1024 in Hs.
  set (p := 2 ^ k) in *. set (t := tenths size k) in *.
  split; nia.
Qed.

Lemma unit_field_min (d k : Z) (u : ascii) :
  (7 <= String.length (fmt_f1 d k ++ String u ""))%nat.
Proof.
  unfold fmt_f1. rewrite append_length, pad_left_length.
  change (String.length (String u "")) with 1%nat. lia.
Qed.

Lemma unit_field_exact (d k : Z) (u : ascii) :
  0 <= tenths d k < 100000 ->
  String.length (fmt_f1 d k ++ String u "") = 7%nat.
Proof.
  intros H. rewrite append_length, (fmt_f1_length d k H). reflexivity.
Qed.

(** X9: the size field is never narrower than 7 characters; it is exactly 7
    wide, so that the columns line up, for every size below 10000000 bytes
    in the plain rendering and for every size below 1 GiB in the
    human-readable one. *)
Theorem fmt_size_width (g : arg_t) (size : Z) :
  (7 <= String.length (fmt_size g size))%nat
  /\ (human g = 0 -> 0 <= size < 10000000 ->
      String.length (fmt_size g size) = 7%nat)
  /\ (human g <> 0 -> 0 <= size < 2 ^ 30 ->
      String.length (fmt_size g size) = 7%nat).
Proof.
  split; [ | split].
  - unfold fmt_size.
    destruct (human g =? 0); [rewrite pad_left_length; lia | ].
    destruct (ONE_GB <=? size); [apply unit_field_min | ].
    destruct (ONE_MB <=? size); [apply unit_field_min | ].
    destruct (ONE_KB <=? size); [apply unit_field_min | ].
    rewrite pad_left_length. lia.
  - intros Hh Hs. unfold fmt_size. rewrite Hh. simpl Z.eqb. cbv iota.
    rewrite pad_left_length.
    pose proof (dec_length size 7 ltac:(lia) ltac:(simpl; lia)). lia.
  - intros Hh Hs. unfold fmt_size.
    destruct (human g =? 0) eqn:E; [lia | ].
    change ONE_GB with (2 ^ 30). change ONE_MB with (2 ^ 20).
    change ONE_KB with (2 ^ 10).
    destruct (2 ^ 30 <=? size) eqn:E1; [lia | ].
    destruct (2 ^ 20 <=? size) eqn:E2.
    + apply unit_field_exact. apply tenths_scaled; lia.
    + destruct (2 ^ 10 <=? size) eqn:E3.
      * apply unit_field_exact. apply tenths_scaled; lia.
      * rewrite pad_left_length.
        pose proof (dec_length size 4 ltac:(lia) ltac:(simpl; lia)). lia.
Qed.

Lemma fmt_size_width_witness :
  human (set_human g_args0 1) <> 0 /\ 0 <= 1048575 < 2 ^ 30
  /\ String.length (fmt_size (set_human g_args0 1) 1048575) = 7%nat.
Proof.
  assert (H : human (set_human g_args0 1) <> 0) by discriminate.
  destruct (fmt_size_width (set_human g_args0 1) 1048575) as (_ & _ & H3).
  split; [exact H | ]. split; [lia | ]. apply H3; [exact H | lia].
Defined.

(** ** A lost working directory *)

Section LostFacts.
Context {W : Type} (K : kernel W) (g : arg_t).

Lemma bind_exits {A B} (m : M W A) (k : A -> M W B) :
  gives_up_on_fatal any m ->
  (forall a s, exists s' l, k a s = (Exit 1, s', l)) ->
  forall s, exists s' l, bind m k s = (Exit 1, s', l).
Proof.
  intros Hm Hk s. specialize (Hm s). unfold bind.
  destruct (m s) as [[[a | n] s1] l1].
  - destruct (Hk a s1) as (s' & l & ->). eauto.
  - destruct Hm as [-> _]. eauto.
Qed.

Lemma do_dirs_lost (dirs : list string) :
  (forall w size, succeeds (k_getcwd K w size) = false) ->
  forall s, exists s' l, do_dirs K g dirs s = (Exit 1, s', l).
Proof.
  intros H s. unfold do_dirs, bind, sys_getcwd, query.
  specialize (H (world s) 4096).
  destruct (k_getcwd K (world s) 4096) as [e | cwd]; [ | discriminate].
  simpl. eauto.
Qed.
End LostFacts.

(** X10: [do_dirs] asks for the working directory before it looks at its
    argument, so when [getcwd] fails the run ends with status 1 whatever the
    operands are, even when none of them is a directory and every plain
    operand has been listed. *)
Theorem getcwd_failure_fatal {W : Type} (K : kernel W) (g : arg_t)
  (s : state W) :
  (forall w size, succeeds (k_getcwd K w size) = false) ->
  exit_status (main_list K g s) = 1.
Proof.
  intros H.
  assert (Hrest : forall s0, exists s' l,
             (c <- classify K g ;;
              do_files K g (sort (snd c)) ;;
              do_dirs K g (sort (fst c)) ;;
              ret 0) s0 = (Exit 1, s', l)).
  { apply bind_exits; [apply guf_classify | intros c].
    apply bind_exits; [apply guf_do_files | intros _].
    intros s1. destruct (do_dirs_lost K g (sort (fst c)) H s1) as (s' & l & E).
    exists s', l. apply bind_exit_run. exact E. }
  unfold main_list.
  set (rest := c <- classify K g ;; _) in *.
  unfold bind, sys_malloc.
  destruct (k_malloc K (world s) (array_bytes (fc g))) as [[|] w1];
    destruct (k_malloc K _ (array_bytes (fc g))) as [[|] w2];
    try reflexivity.
  change (negb true || negb true) with false. cbv iota.
  match goal with
  | |- context [rest ?s0] => destruct (Hrest s0) as (s' & l & ->)
  end.
  reflexivity.
Qed.

Lemma getcwd_failure_fatal_witness :
  let g := mk_args 0 0 0 0 ["notes"] 1 in
  exit_status (main_list lost_kernel g (Toy.start Toy.home)) = 1
  /\ stdout_text (log_of (main_list lost_kernel g (Toy.start Toy.home)))
     = ("11     1  -rw-r--r-- root     root        1536 1970-01-01 00:00 notes"
        ++ String "010" "")%string.
Proof.
  split; [ | reflexivity].
  apply (getcwd_failure_fatal lost_kernel). intros w size. reflexivity.
Defined.

(** ** Where the process is when it calls the system *)

Section WalkFacts.
Context {W : Type} (K : kernel W) (g : arg_t).

Lemma walk_app (b : bool) (l1 l2 : list event) :
  walk b (l1 ++ l2)
  = match walk b l1 with
    | Some b' => walk b' l2
    | None => None
    end.
Proof.
  revert b. induction l1 as [| ev r IH]; intros b; [reflexivity | ].
  destruct ev; simpl; try apply IH; destruct b; try reflexivity; apply IH.
Qed.

Lemma walks_ret {A} (b : bool) (f : A -> bool) (a : A) :
  f a = b -> walks (W:=W) b f (ret a).
Proof. intros H s. simpl. rewrite H. reflexivity. Qed.

Lemma walks_exit {A} (b : bool) (f : A -> bool) (n : Z) :
  walks (W:=W) b f (exit (A:=A) n).
Proof. intros s. simpl. eauto. Qed.

Lemma walks_bind {A B} (b : bool) (f : A -> bool) (h : B -> bool)
  (m : M W A) (k : A -> M W B) :
  walks b f m -> (forall a, walks (f a) h (k a)) -> walks b h (bind m k).
Proof.
  intros Hm Hk s. specialize (Hm s). unfold bind.
  destruct (m s) as [[[a | n] s1] l1]; [ | exact Hm].
  specialize (Hk a s1). destruct (k a s1) as [[[c | n] s2] l2];
    rewrite walk_app, Hm; exact Hk.
Qed.

(** A step that logs nothing, or one event that [walk] passes over. *)
Lemma walks_still {A} (b : bool) (m : M W A) :
  (forall s, exists a s' l, m s = (Ret a, s', l) /\ walk b l = Some b) ->
  walks b (fun _ => b) m.
Proof.
  intros H s. destruct (H s) as (a & s' & l & E & Hl). rewrite E. exact Hl.
Qed.

Lemma walks_stdout (b : bool) (text : string) :
  walks (W:=W) b (fun _ => b) (fprintf_stdout text).
Proof. apply walks_still. intros s. do 3 eexists. split; reflexivity. Qed.

Lemma walks_err_sys (b : bool) (msg : string) :
  walks b (fun _ => b) (err_sys K msg).
Proof. apply walks_still. intros s. do 3 eexists. split; reflexivity. Qed.

Lemma walks_malloc (b : bool) (size : Z) :
  walks b (fun _ => b) (sys_malloc K size).
Proof.
  apply walks_still. intros s. unfold sys_malloc.
  destruct (k_malloc K (world s) size) as [[|] w']; do 3 eexists;
    split; reflexivity.
Qed.

Lemma walks_get_stat (p : string) :
  walks true (fun _ => true) (get_stat K g p).
Proof.
  apply walks_still. intros s. rewrite get_stat_run. unfold query, lookup_event.
  destruct (lookup_result K g (world s) p); destruct (negb (follow g =? 0));
    do 3 eexists; split; reflexivity.
Qed.

Lemma walks_fmt_name (buf : stat_t) (name : string) :
  walks true (fun _ => true) (fmt_name K buf name).
Proof.
  unfold fmt_name. destruct (S_ISLNK (st_mode buf)).
  2: { apply walks_still. intros s. unfold sys_strdup.
       destruct (k_malloc K (world s) _) as [[|] w']; do 3 eexists;
         split; reflexivity. }
  eapply walks_bind; [apply walks_malloc | intros ok].
  destruct ok; simpl.
  - eapply walks_bind with (f := fun _ => true).
    + apply walks_still. intros s. unfold sys_readlink, query.
      destruct (k_readlink K (world s) name _); do 3 eexists;
        split; reflexivity.
    + intros [target | ]; [apply walks_ret; reflexivity | ].
      eapply walks_bind; [apply walks_err_sys | intros ?; cbv beta; apply walks_exit].
  - eapply walks_bind; [apply walks_err_sys | intros ?; cbv beta; apply walks_exit].
Qed.

Lemma walks_pr_line (buf : stat_t) (name : string) :
  walks true (fun _ => true) (pr_line K g buf name).
Proof.
  unfold pr_line, fmt_owner, fmt_group, fmt_time.
  repeat first
    [ apply walks_fmt_name
    | apply walks_stdout
    | apply walks_ret; reflexivity
    | apply walks_still; intros s; do 3 eexists; split; reflexivity
    | eapply walks_bind with (f := fun _ => true); [ | intros ? ] ].
Qed.

Lemma walks_do_file (file : string) :
  walks true (fun _ => true) (do_file K g file).
Proof.
  unfold do_file. destruct (negb (skip g file =? 0));
    [apply walks_ret; reflexivity | ].
  eapply walks_bind; [apply walks_get_stat | ].
  intros [buf | ]; [apply walks_pr_line | apply walks_err_sys].
Qed.

Lemma walks_do_files (l : list string) :
  walks true (fun _ => true) (do_files K g l).
Proof.
  induction l as [| f r IH]; simpl; [apply walks_ret; reflexivity | ].
  eapply walks_bind; [apply walks_do_file | intros ?; cbv beta; exact IH].
Qed.

Lemma walks_listdir (dir : string) :
  walks false (fun _ => false) (listdir K dir).
Proof.
  unfold listdir. eapply walks_bind; [apply walks_malloc | intros ok].
  destruct ok; simpl.
  - eapply walks_bind with (f := fun _ => false).
    + apply walks_still. intros s. unfold sys_readdir, query.
      destruct (k_readdir K (world s) dir); do 3 eexists; split; reflexivity.
    + intros [names | ]; [apply walks_ret; reflexivity | ].
      eapply walks_bind; [apply walks_err_sys | ].
      intros ?; cbv beta. apply walks_ret. reflexivity.
  - eapply walks_bind; [apply walks_err_sys | intros ?; cbv beta; apply walks_exit].
Qed.

Lemma walks_do_dir (dc : Z) (cwd dir : string) :
  walks false (fun _ => false) (do_dir K g dc cwd dir).
Proof.
  unfold do_dir. eapply walks_bind; [apply walks_listdir | ].
  intros [names | ]; [ | apply walks_ret; reflexivity].
  apply walks_bind with (f := fun ok : bool => ok).
  { intros s. unfold sys_chdir.
    destruct (k_chdir K (world s) dir); reflexivity. }
  intros [|]; simpl; [ | apply walks_err_sys].
  eapply walks_bind with (f := fun _ => true).
  { destruct (_ && _); [apply walks_stdout | apply walks_ret; reflexivity]. }
  intros ?; cbv beta. eapply walks_bind; [apply walks_do_files | intros ?; cbv beta; cbv beta].
  apply walks_bind with (f := fun back : bool => negb back).
  { intros s. unfold sys_chdir.
    destruct (k_chdir K (world s) cwd); reflexivity. }
  intros [|]; simpl; [apply walks_ret; reflexivity | ].
  eapply walks_bind; [apply walks_err_sys | intros ?; cbv beta; apply walks_exit].
Qed.

Lemma walks_do_dirs_loop (dc : Z) (cwd : string) (dirs : list string) :
  walks false (fun _ => false) (do_dirs_loop K g dc cwd dirs).
Proof.
  induction dirs as [| d r IH]; simpl; [apply walks_ret; reflexivity | ].
  eapply walks_bind; [apply walks_do_dir | intros ?; cbv beta; exact IH].
Qed.

Lemma walks_do_dirs (dirs : list string) :
  walks false (fun _ => false) (do_dirs K g dirs).
Proof.
  unfold do_dirs. eapply walks_bind with (f := fun _ => false).
  - apply walks_still. intros s. unfold sys_getcwd, query.
    destruct (k_getcwd K (world s) 4096); do 3 eexists; split; reflexivity.
  - intros [cwd | ]; [apply walks_do_dirs_loop | ].
    eapply walks_bind; [apply walks_err_sys | intros ?; cbv beta; apply walks_exit].
Qed.
End WalkFacts.

(** X11: [do_dirs] keeps to its working-directory discipline.  Every
    directory operand is opened and entered from the starting directory,
    never from inside another operand; the entries of a directory are looked
    up, and links read, only after that directory has been entered and
    before the way back; and when [do_dirs] returns, the process has come
    back from every directory it entered. *)
Theorem do_dirs_discipline {W : Type} (K : kernel W) (g : arg_t)
  (dirs : list string) (s : state W) :
  exists inside,
    walk false (log_of (do_dirs K g dirs s)) = Some inside
    /\ (forall s' l, do_dirs K g dirs s = (Ret tt, s', l) -> inside = false).
Proof.
  pose proof (walks_do_dirs K g dirs s) as H. unfold log_of.
  destruct (do_dirs K g dirs s) as [[[[] | n] s1] l1]; simpl.
  - exists false. split; [exact H | reflexivity].
  - destruct H as (b' & H). exists b'. split; [exact H | discriminate].
Qed.

(** ** Failures and their reports *)

Section ReportFacts.
Context {W : Type} (K : kernel W) (g : arg_t).

Lemma scan_app (b : bool) (l1 l2 : list event) :
  scan b (l1 ++ l2)
  = match scan b l1 with
    | Some b' => scan b' l2
    | None => None
    end.
Proof.
  revert b. induction l1 as [| ev r IH]; intros b; [reflexivity | ].
  destruct ev; simpl; destruct b; try reflexivity; apply IH.
Qed.

Lemma reports_ret {A} (a : A) : reports (W:=W) (ret a).
Proof. intros s. reflexivity. Qed.

Lemma reports_exit {A} (n : Z) : reports (W:=W) (exit (A:=A) n).
Proof. intros s. reflexivity. Qed.

Lemma reports_bind {A B} (m : M W A) (k : A -> M W B) :
  reports m -> (forall a, reports (k a)) -> reports (bind m k).
Proof.
  intros Hm Hk s. specialize (Hm s). unfold bind, log_of in *.
  destruct (m s) as [[[a | n] s1] l1]; simpl in *; [ | exact Hm].
  specialize (Hk a s1). destruct (k a s1) as [[o s2] l2]; simpl in *.
  rewrite scan_app, Hm. exact Hk.
Qed.

(** A step that logs nothing, or one event that is neither a failure nor a
    report. *)
Lemma reports_quiet {A} (m : M W A) :
  (forall s, scan false (log_of (m s)) = Some false) -> reports m.
Proof. intros H. exact H. Qed.

Lemma reports_stdout (text : string) :
  reports (W:=W) (fprintf_stdout text).
Proof. intros s. reflexivity. Qed.

(** A call followed by code that, when the call has failed, starts by
    writing to stderr. *)
Lemma reports_checked {A B} (m : M W A) (k : A -> M W B) :
  (forall s, exists a s' ev,
      m s = (Ret a, s', [ev])
      /\ scan false [ev] = Some (failed ev)
      /\ if failed ev
         then forall s0, exists text l,
             log_of (k a s0) = EvStderr text :: l
             /\ scan false l = Some false
         else reports (k a)) ->
  reports (bind m k).
Proof.
  intros H s. destruct (H s) as (a & s' & ev & Hm & Hev & Hk).
  unfold bind, log_of. rewrite Hm.
  assert (Hl2 : scan (failed ev) (log_of (k a s')) = Some false).
  { destruct (failed ev) eqn:E.
    - destruct (Hk s') as (text & l & Hl & Hs). rewrite Hl. exact Hs.
    - apply Hk. }
  unfold log_of in Hl2. destruct (k a s') as [[o s2] l2].
  cbn [snd] in *. rewrite scan_app, Hev. exact Hl2.
Qed.

Ltac checked_call :=
  apply reports_checked; intros ?s;
  repeat match goal with
         | |- context [k_malloc ?K ?w ?n] =>
             destruct (k_malloc K w n) as [[|] ?w']
         | |- context [k_readlink ?K ?w ?p ?n] =>
             destruct (k_readlink K w p n)
         | |- context [k_readdir ?K ?w ?p] => destruct (k_readdir K w p)
         | |- context [k_chdir ?K ?w ?p] => destruct (k_chdir K w p)
         | |- context [k_getcwd ?K ?w ?n] => destruct (k_getcwd K w n)
         | |- context [lookup_result ?K ?g ?w ?p] =>
             destruct (lookup_result K g w p)
         end;
  do 3 eexists; (split; [reflexivity | ]); (split; [reflexivity | ]);
  unfold failed; cbn [fatal per_entry_failure negb orb];
  try (intros ?s0; do 2 eexists; split; reflexivity).

Lemma reports_fmt_name (buf : stat_t) (name : string) :
  reports (fmt_name K buf name).
Proof.
  unfold fmt_name. destruct (S_ISLNK (st_mode buf)).
  2: { apply reports_quiet. intros s. unfold sys_strdup.
       destruct (k_malloc K (world s) _) as [[|] w']; reflexivity. }
  unfold sys_malloc. checked_call.
  unfold sys_readlink, query. checked_call.
Qed.

Lemma reports_pr_line (buf : stat_t) (name : string) :
  reports (pr_line K g buf name).
Proof.
  unfold pr_line, fmt_owner, fmt_group, fmt_time.
  repeat first
    [ apply reports_fmt_name
    | apply reports_stdout
    | apply reports_ret
    | apply reports_quiet; intros s; reflexivity
    | apply reports_bind; [ | intros ? ] ].
Qed.

Lemma reports_do_file (file : string) : reports (do_file K g file).
Proof.
  unfold do_file. destruct (negb (skip g file =? 0)); [apply reports_ret | ].
  apply reports_checked. intros s. rewrite get_stat_run. unfold query.
  unfold lookup_event.
  destruct (lookup_result K g (world s) file);
    destruct (negb (follow g =? 0));
    do 3 eexists; (split; [reflexivity | ]); (split; [reflexivity | ]);
    unfold failed; cbn [fatal per_entry_failure negb orb];
    try (intros s0; do 2 eexists; split; reflexivity);
    apply reports_pr_line.
Qed.

Lemma reports_do_files (l : list string) : reports (do_files K g l).
Proof.
  induction l as [| f r IH]; simpl; [apply reports_ret | ].
  apply reports_bind; [apply reports_do_file | intros _; exact IH].
Qed.

Lemma reports_listdir (dir : string) : reports (listdir K dir).
Proof.
  unfold listdir, sys_malloc. checked_call.
  unfold sys_readdir, query. checked_call.
Qed.

Lemma reports_do_dir (dc : Z) (cwd dir : string) :
  reports (do_dir K g dc cwd dir).
Proof.
  unfold do_dir. apply reports_bind; [apply reports_listdir | ].
  intros [names | ]; [ | apply reports_ret].
  unfold sys_chdir at 1. checked_call.
  apply reports_bind.
  { destruct (_ && _); [apply reports_stdout | apply reports_ret]. }
  intros _. apply reports_bind; [apply reports_do_files | intros _].
  unfold sys_chdir. checked_call.
Qed.

Lemma reports_do_dirs_loop (dc : Z) (cwd : string) (dirs : list string) :
  reports (do_dirs_loop K g dc cwd dirs).
Proof.
  induction dirs as [| d r IH]; simpl; [apply reports_ret | ].
  apply reports_bind; [apply reports_do_dir | intros _; exact IH].
Qed.

Lemma reports_do_dirs (dirs : list string) : reports (do_dirs K g dirs).
Proof.
  unfold do_dirs, sys_getcwd, query. checked_call.
  apply reports_do_dirs_loop.
Qed.
End ReportFacts.

(** X12: while listing, every failed call is reported and nothing else is:
    in the log of [do_files] and in the log of [do_dirs], each failed system
    call is followed at once by one message on stderr, and each message on
    stderr follows a failed call. *)
Theorem failures_reported_once {W : Type} (K : kernel W) (g : arg_t)
  (names : list string) (s : state W) :
  scan false (log_of (do_files K g names s)) = Some false
  /\ scan false (log_of (do_dirs K g names s)) = Some false.
Proof. split; [apply reports_do_files | apply reports_do_dirs]. Qed.

(** ** One lookup per entry, in order *)

Section OrderFacts.
Context {W : Type} (K : kernel W) (g : arg_t).

Lemma lookups_app (l1 l2 : list event) :
  lookups (l1 ++ l2) = lookups l1 ++ lookups l2.
Proof.
  induction l1 as [| ev r IH]; [reflexivity | ].
  destruct ev; simpl; rewrite IH; reflexivity.
Qed.

Lemma lookups_line (l : list event) : Forall line_event l -> lookups l = [].
Proof.
  induction 1 as [| ev r Hev _ IH]; [reflexivity | ].
  destruct ev; simpl in *; try contradiction; exact IH.
Qed.

Lemma lookups_event (p : string) (ok : bool) (l : list event) :
  lookups (lookup_event g p ok :: l) = p :: lookups l.
Proof. unfold lookup_event. destruct (negb (follow g =? 0)); reflexivity. Qed.

Lemma do_file_lookups (file : string) (s : state W) :
  lookups (log_of (do_file K g file s))
  = if unskipped g file then [file] else [].
Proof.
  unfold unskipped. destruct (Z.eq_dec (skip g file) 0) as [Hs | Hs].
  - rewrite Hs. simpl Z.eqb. cbv iota.
    destruct (lookup_result K g (world s) file) as [e | buf] eqn:E.
    + rewrite (do_file_failed K g file s e Hs E). unfold log_of. cbn [snd].
      rewrite lookups_event. reflexivity.
    + rewrite (do_file_found K g file s buf Hs E).
      pose proof (pr_line_log K g buf file s) as HL. unfold log_of in *.
      destruct (pr_line K g buf file s) as [[o s'] l]. cbn [snd] in *.
      rewrite lookups_event, (lookups_line l HL). reflexivity.
  - rewrite (do_file_skipped K g file s Hs).
    destruct (skip g file =? 0) eqn:E; [lia | reflexivity].
Qed.
End OrderFacts.

(** X13: [do_files] looks up each name that the filter keeps exactly once,
    in the order of its argument, and looks up nothing else.  When the loop
    is cut short by an [exit], the lookups made are those of the first kept
    names. *)
Theorem do_files_lookups {W : Type} (K : kernel W) (g : arg_t)
  (names : list string) (s : state W) :
  match do_files K g names s with
  | (Ret _, _, l) => lookups l = filter (unskipped g) names
  | (Exit _, _, l) =>
      exists rest, lookups l ++ rest = filter (unskipped g) names
  end.
Proof.
  revert s. induction names as [| f r IH]; intros s; [reflexivity | ].
  simpl do_files. unfold bind.
  pose proof (do_file_lookups K g f s) as Hf. unfold log_of in Hf.
  destruct (do_file K g f s) as [[[[] | n] s1] l1]; cbn [snd] in Hf.
  - specialize (IH s1).
    destruct (do_files K g r s1) as [[[[] | n] s2] l2];
      rewrite lookups_app, Hf; simpl filter.
    + rewrite IH. destruct (unskipped g f); reflexivity.
    + destruct IH as (rest & IH). exists rest.
      rewrite <- app_assoc, IH. destruct (unskipped g f); reflexivity.
  - exists (filter (unskipped g) r). rewrite Hf. simpl filter.
    destruct (unskipped g f); reflexivity.
Qed.

(** ** What is written to stderr *)

Section StderrFacts.
Context {W : Type} (K : kernel W) (g : arg_t).








End StderrFacts.



(** ** The printed line *)

(** X16: for a symbolic link, when the buffer is allocated, the link can be
    read, and the name, the arrow and the target leave room in the 4096 byte
    buffer for the terminating NUL, the name shown is the name, [" -> "], and
    the target exactly as the one [readlink] call returned it: the target is
    not looked up any further. *)
Theorem fmt_name_link {W : Type} (K : kernel W) (buf : stat_t)
  (name target : string) (s : state W) (w1 : W) :
  S_ISLNK (st_mode buf) = true ->
  (String.length name + 4 + String.length target < 4096)%nat ->
  k_malloc K (world s) 4096 = (true, w1) ->
  k_readlink K w1 name (4096 - Z.of_nat (String.length (name ++ " -> ")))
  = inr target ->
  fmt_name K buf name s =
    (Ret (Some (name ++ " -> " ++ target)%string), mk_state w1 (errno s),
     [EvMalloc 4096 true; EvReadlink name true]).
Proof.
  intros Hl Hn Hm Hr.
  unfold fmt_name, bind, sys_malloc, sys_readlink, query, ret.
  rewrite Hl, Hm. cbn [negb world]. rewrite Hr. cbn [app].
  rewrite substring_all.
  - rewrite string_app_assoc. reflexivity.
  - rewrite append_length. simpl String.length. lia.
Qed.

Lemma fmt_name_link_witness :
  fmt_name Toy.K (Toy.node_stat (Toy.Link "/srv/docs")) "docs"
    (Toy.start Toy.home)
  = (Ret (Some "docs -> /srv/docs"), Toy.start Toy.home,
     [EvMalloc 4096 true; EvReadlink "docs" true]).
Proof.
  apply (fmt_name_link Toy.K (Toy.node_stat (Toy.Link "/srv/docs")) "docs"
           "/srv/docs" (Toy.start Toy.home) Toy.home);
    [reflexivity | simpl; lia | reflexivity | reflexivity].
Defined.

(** ** A run without failures *)

Section QuietFacts.
Context {W : Type} (K : kernel W) (g : arg_t).








End QuietFacts.


